(** * Close Solid Holes: concave-patch detection and closing

    A shallow embedding of [ops/close_through_holes.py] (the operator
    [CloseSolidHoles]) together with the properties of its flood-fill
    segmentation, patch summaries, diameter filter and limits setter, and
    of the operator [SelectSimilar] of [ops/select_similar.py].

    Conventions of the embedding.
    - Blender floats are modelled as exact rationals ([Q]); comparisons,
      [abs], [min] and [max] are exact on finite floats, sums and
      products are idealised (no rounding).
    - A face handle is its index: [bfaces[i].index = i].
    - Python exceptions are the [Raised] outcome; loops that the source
      writes as [while] are driven by fuel, and [OutOfFuel] is shown
      never to be produced by the fuel the model supplies. *)

From Stdlib Require Import List Bool Arith Lia QArith Qabs Qminmax Qfield.
From Stdlib Require Import Sorting.Sorted Permutation.
Import ListNotations.

Set Implicit Arguments.
Local Open Scope nat_scope.

(** ** Outcomes of a call *)

Inductive exn : Type :=
| IndexError
| ValueError
| RuntimeError.

Inductive outcome (A : Type) : Type :=
| Done (a : A)
| Raised (e : exn)
| OutOfFuel.

Arguments Done {A} a.
Arguments Raised {A} e.
Arguments OutOfFuel {A}.

Definition bind {A B : Type} (c : outcome A) (k : A -> outcome B) : outcome B :=
  match c with
  | Done a => k a
  | Raised e => Raised e
  | OutOfFuel => OutOfFuel
  end.

Notation "x <- c ;; k" := (bind c (fun x => k))
  (at level 61, c at next level, right associativity).
Notation "' pat <- c ;; k" := (bind c (fun x => match x with pat => k end))
  (at level 61, pat pattern, c at next level, right associativity).

(** [l[i]] on a Python list or a numpy array, for a non-negative index. *)
Definition getitem {A : Type} (l : list A) (i : nat) : outcome A :=
  match nth_error l i with
  | Some a => Done a
  | None => Raised IndexError
  end.

(** [l[i] = v], used by the source only after [l[i]] was read. *)
Fixpoint setitem {A : Type} (l : list A) (i : nat) (v : A) : list A :=
  match l, i with
  | [], _ => []
  | _ :: t, 0 => v :: t
  | h :: t, S j => h :: setitem t j v
  end.

(** [a[idxs]]: numpy indexing by a list of indices. *)
Fixpoint take {A : Type} (a : list A) (idxs : list nat) : outcome (list A) :=
  match idxs with
  | [] => Done []
  | i :: rest =>
      x <- getitem a i ;;
      xs <- take a rest ;;
      Done (x :: xs)
  end.

(** A [for] loop threading a state through a body that may raise. *)
Fixpoint foldM {A S : Type} (body : S -> A -> outcome S) (l : list A) (s : S)
  : outcome S :=
  match l with
  | [] => Done s
  | x :: rest => s' <- body s x ;; foldM body rest s'
  end.

(** ** Scalars and 3-vectors *)

Definition Qltb (a b : Q) : bool := negb (Qle_bool b a).

Definition vec : Type := (Q * Q * Q)%type.

Definition vx (v : vec) : Q := fst (fst v).
Definition vy (v : vec) : Q := snd (fst v).
Definition vz (v : vec) : Q := snd v.

Definition vsub (a b : vec) : vec :=
  (vx a - vx b, vy a - vy b, vz a - vz b)%Q.

Definition vadd (a b : vec) : vec :=
  (vx a + vx b, vy a + vy b, vz a + vz b)%Q.

Definition vscale (k : Q) (a : vec) : vec :=
  (k * vx a, k * vy a, k * vz a)%Q.

Definition dot (a b : vec) : Q :=
  (vx a * vx b + vy a * vy b + vz a * vz b)%Q.

Definition veq (a b : vec) : Prop :=
  (vx a == vx b /\ vy a == vy b /\ vz a == vz b)%Q.

Definition coords (v : vec) : list Q := [vx v; vy v; vz v].

(** ** Meshes

    A face of the committed mesh ([data.polygons[i]]) and of its edit-mesh
    view ([bfaces[i]]), taken after [o.update_from_editmode()] has brought
    the two in step.  [radial] lists, for the loops [l] of the face in
    order, the index of [l.link_loop_radial_next.face]; across an open edge
    that is the face itself. *)

Record Face : Type := {
  normal : vec;
  center : vec;
  select : bool;
  vertices : list nat;
  radial : list nat
}.

(** [data.polygons]; the index of a face is its position. *)
Definition Mesh : Type := list Face.

(** Modelled from the spec: [get_vecs(polys, attr)] of
    [smorgasbord.common.io] is missing; it is the per-face snapshot of
    the named vector attribute, one row per face in index order. *)
Definition get_vecs (polys : Mesh) (attr : Face -> vec) : list vec :=
  map attr polys.

(** Modelled from the spec: [get_scalars(polys)] of
    [smorgasbord.common.io] is missing; it is a fresh boolean array holding
    the face-selection state, [True] for a selected (eligible) face. *)
Definition get_scalars (polys : Mesh) : list bool :=
  map select polys.

(** ** Concavity segmenter: lines 73-100 of [_find_concave_patches] *)

(** The literal [1e-5]. *)
Definition eps : Q := 1 # 100000.

(** [n.dot(centrs[i2] - c) > 1e-5]. *)
Definition concave (n c c2 : vec) : bool :=
  Qltb eps (dot n (vsub c2 c)).

(** Body of [for l in f.loops], on the neighbour index [i2].  The state is
    the flag array and the stack, the top of the stack first.  Python's
    [and] reads [centrs[i2]] only when [flags[i2]] holds. *)
Definition visit (centrs : list vec) (n c : vec)
  (st : list bool * list nat) (i2 : nat) : outcome (list bool * list nat) :=
  let '(flags, stack) := st in
  fl <- getitem flags i2 ;;
  if fl then
    c2 <- getitem centrs i2 ;;
    if concave n c c2
    then Done (setitem flags i2 false, i2 :: stack)
    else Done (flags, stack)
  else Done (flags, stack).

(** [while stack: ...]; one unit of fuel per pop. *)
Fixpoint flood (bfaces : Mesh) (centrs : list vec) (fuel : nat)
  (stack : list nat) (flags : list bool) (findcs : list nat)
  : outcome (list bool * list nat) :=
  match stack with
  | [] => Done (flags, findcs)
  | fi :: stack' =>
      match fuel with
      | O => OutOfFuel
      | S fuel' =>
          f <- getitem bfaces fi ;;
          c <- getitem centrs fi ;;
          '(flags', stack'') <-
            foldM (visit centrs (normal f) c) (radial f) (flags, stack') ;;
          flood bfaces centrs fuel' stack'' flags' (findcs ++ [fi])
      end
  end.

Definition count_true (flags : list bool) : nat :=
  length (filter (fun b => b) flags).

(** Fuel for one traversal: the seed plus every face still flagged. *)
Definition traversal_fuel (flags : list bool) : nat :=
  S (count_true flags).

(** Body of [for i, new in enumerate(flags)].  The array is read at the
    time index [i] is reached, so flags cleared by earlier traversals are
    seen. *)
Definition seed_step (bfaces : Mesh) (centrs : list vec)
  (st : list bool * list (list nat)) (i : nat)
  : outcome (list bool * list (list nat)) :=
  let '(flags, patches) := st in
  new <- getitem flags i ;;
  if negb new then Done (flags, patches)
  else
    let flags := setitem flags i false in
    '(flags', findcs) <-
      flood bfaces centrs (traversal_fuel flags) [i] flags [] ;;
    if 1 <? length findcs
    then Done (flags', patches ++ [findcs])
    else Done (flags', patches).

(** The outer loop from given flags: final flags and recorded patches. *)
Definition segment_from (bfaces : Mesh) (centrs : list vec)
  (flags : list bool) : outcome (list bool * list (list nat)) :=
  foldM (seed_step bfaces centrs) (seq 0 (length flags)) (flags, []).

(** Lines 61-100: the list [patches] when the outer loop ends. *)
Definition segment (polys : Mesh) : outcome (list (list nat)) :=
  let centrs := get_vecs polys center in
  let flags := get_scalars polys in
  '(_, patches) <- segment_from polys centrs flags ;;
  Done patches.

(** ** Patch summarizer: lines 103-123 of [_find_concave_patches] *)

(** [np.argmax] scan: the running maximum is replaced only by a strictly
    greater entry, so the first maximum wins. *)
Fixpoint argmax_from {A : Type} (ltb : A -> A -> bool) (best : A)
  (besti i : nat) (l : list A) : nat :=
  match l with
  | [] => besti
  | x :: t =>
      if ltb best x
      then argmax_from ltb x i (S i) t
      else argmax_from ltb best besti (S i) t
  end.

Definition argmax {A : Type} (ltb : A -> A -> bool) (l : list A)
  : outcome nat :=
  match l with
  | [] => Raised ValueError
  | x :: t => Done (argmax_from ltb x 0 1 t)
  end.

(** [np.bincount]: occurrences of each value from [0] to the maximum. *)
Definition bincount (dirs : list nat) : list nat :=
  match dirs with
  | [] => []
  | _ => map (count_occ Nat.eq_dec dirs) (seq 0 (S (list_max dirs)))
  end.

(** A loop building a list from a body that may raise. *)
Fixpoint mapM {A B : Type} (f : A -> outcome B) (l : list A)
  : outcome (list B) :=
  match l with
  | [] => Done []
  | x :: rest =>
      y <- f x ;;
      ys <- mapM f rest ;;
      Done (y :: ys)
  end.

(** One row of [np.argmax(np.abs(...), axis=1)]. *)
Definition facing (n : vec) : outcome nat :=
  argmax Qltb (map Qabs (coords n)).

(** [dirs = np.argmax(np.abs(normals[findcs]), axis=1)]. *)
Definition dirs_of (normals : list vec) (findcs : list nat)
  : outcome (list nat) :=
  rows <- take normals findcs ;;
  mapM facing rows.

(** [direc = dirs[np.bincount(dirs).argmax()]]. *)
Definition direc_of (dirs : list nat) : outcome nat :=
  k <- argmax Nat.ltb (bincount dirs) ;;
  getitem dirs k.

(** [np.amax] and [np.amin] of one column. *)
Definition amax (l : list Q) : outcome Q :=
  match l with
  | [] => Raised ValueError
  | x :: t => Done (fold_left Qmax t x)
  end.

Definition amin (l : list Q) : outcome Q :=
  match l with
  | [] => Raised ValueError
  | x :: t => Done (fold_left Qmin t x)
  end.

Definition span (l : list Q) : outcome Q :=
  hi <- amax l ;;
  lo <- amin l ;;
  Done (hi - lo)%Q.

Definition Qsum (l : list Q) : Q := fold_right Qplus 0%Q l.

Definition Qlen {A : Type} (l : list A) : Q := inject_Z (Z.of_nat (length l)).

(** [np.mean] of one column. *)
Definition mean (l : list Q) : Q := (Qsum l / Qlen l)%Q.

(** Modelled from the spec: [get_bounds_and_center(pts)] of
    [smorgasbord.common.io] is missing.  Its first result is the per-axis
    span (max - min) of the points, its second the arithmetic mean of the
    points. *)
Definition get_bounds_and_center (pts : list vec) : outcome (vec * vec) :=
  bx <- span (map vx pts) ;;
  by_ <- span (map vy pts) ;;
  bz <- span (map vz pts) ;;
  Done ((bx, by_, bz), (mean (map vx pts), mean (map vy pts), mean (map vz pts))).

(** An entry of [patches2]: [(vindcs, centr, bounds[direc])]. *)
Record PatchSummary : Type := {
  vindcs : list nat;
  centr : vec;
  diam : Q
}.

(** Body of [for findcs in patches].  [list(set(vindcs))] keeps one copy of
    each vertex index; the order Python gives them in is not specified and
    is fixed here to first occurrence. *)
Definition summarize (polys : Mesh) (centrs normals : list vec)
  (findcs : list nat) : outcome PatchSummary :=
  faces <- take polys findcs ;;
  let vindcs := nodup Nat.eq_dec (flat_map vertices faces) in
  dirs <- dirs_of normals findcs ;;
  direc <- direc_of dirs ;;
  pts <- take centrs findcs ;;
  '(bounds, centr) <- get_bounds_and_center pts ;;
  d <- getitem (coords bounds) direc ;;
  Done {| vindcs := vindcs; centr := centr; diam := d |}.

(** Body of [for o in context.objects_in_mode_unique_data], up to the
    value appended to [_meshes]. *)
Definition find_patches (polys : Mesh) : outcome (list PatchSummary) :=
  patches <- segment polys ;;
  mapM (summarize polys (get_vecs polys center) (get_vecs polys normal))
       patches.

(** ** The operator: class-level state, detect and apply *)

(** The class attributes [_limits] and [_meshes]; a mesh datablock is
    named by a number. *)
Record CloseSolidHoles : Type := {
  _limits : Q * Q;
  _meshes : list (nat * list PatchSummary)
}.

(** [_limits = (0, 1)] and [_meshes = []]. *)
Definition initial : CloseSolidHoles :=
  {| _limits := (0, 1)%Q; _meshes := [] |}.

Definition _get_limits (self : CloseSolidHoles) : Q * Q := _limits self.

(** Python's [min] of a pair: the first item unless the second is strictly
    smaller. *)
Definition py_min (value : Q * Q) : Q :=
  if Qltb (snd value) (fst value) then snd value else fst value.

(** [CloseSolidHoles._limits = (min(value), value[1])]. *)
Definition _set_limits (self : CloseSolidHoles) (value : Q * Q)
  : CloseSolidHoles :=
  {| _limits := (py_min value, snd value); _meshes := _meshes self |}.

(** The loop of [_find_concave_patches] over the objects in edit mode: an
    exception leaves [_meshes] with the entries appended so far. *)
Fixpoint detect_loop (objects : list (nat * Mesh)) (self : CloseSolidHoles)
  : outcome unit * CloseSolidHoles :=
  match objects with
  | [] => (Done tt, self)
  | (data, polys) :: rest =>
      match find_patches polys with
      | Done patches2 =>
          detect_loop rest
            {| _limits := _limits self;
               _meshes := _meshes self ++ [(data, patches2)] |}
      | Raised e => (Raised e, self)
      | OutOfFuel => (OutOfFuel, self)
      end
  end.

Definition _find_concave_patches (objects : list (nat * Mesh))
  (self : CloseSolidHoles) : outcome unit * CloseSolidHoles :=
  detect_loop objects {| _limits := _limits self; _meshes := [] |}.

(** ** Hole closer: [execute]

    The edit-mesh library is outside the operator.  It is seen through the
    calls made to it: the world is the history of calls, and a host says,
    from the history, which vertices a mesh has and whether a call raises. *)

Inductive call : Type :=
| FromEditMesh (mesh : nat)
| PointMerge (mesh : nat) (verts : list nat) (merge_co : vec)
| DissolveVerts (mesh : nat) (verts : list nat)
| UpdateEditMesh (mesh : nat).

Record Host : Type := {
  (** the handles in [bob.verts], in index order *)
  verts_of : list call -> nat -> list nat;
  (** the exception a call raises, if any *)
  raises : list call -> call -> option exn
}.

(** A computation on the world that may raise; effects made before an
    exception stay. *)
Definition eff (A : Type) : Type := list call -> outcome A * list call.

Definition eret {A : Type} (a : A) : eff A := fun w => (Done a, w).

Definition ebind {A B : Type} (c : eff A) (k : A -> eff B) : eff B :=
  fun w =>
    match c w with
    | (Done a, w') => k a w'
    | (Raised e, w') => (Raised e, w')
    | (OutOfFuel, w') => (OutOfFuel, w')
    end.

Definition elift {A : Type} (c : outcome A) : eff A := fun w => (c, w).

Notation "x <~ c ;; k" := (ebind c (fun x => k))
  (at level 61, c at next level, right associativity).

(** A call into the library: recorded, then it returns or raises. *)
Definition perform (h : Host) (c : call) : eff unit :=
  fun w =>
    match raises h w c with
    | Some e => (Raised e, w ++ [c])
    | None => (Done tt, w ++ [c])
    end.

(** [mind < diam < maxd]. *)
Definition in_limits (limits : Q * Q) (diam : Q) : bool :=
  Qltb (fst limits) diam && Qltb diam (snd limits).

(** The part of the loop body after the filter: lines 137-140. *)
Definition close_patch (h : Host) (mesh : nat) (bverts : list nat)
  (p : PatchSummary) : eff unit :=
  vs <~ elift (take bverts (vindcs p)) ;;
  _ <~ perform h (PointMerge mesh vs (centr p)) ;;
  v0 <~ elift (getitem vs 0) ;;
  perform h (DissolveVerts mesh [v0]).

(** [for vindcs, centr, diam in patches]. *)
Fixpoint close_patches (h : Host) (limits : Q * Q) (mesh : nat)
  (bverts : list nat) (patches : list PatchSummary) : eff unit :=
  match patches with
  | [] => eret tt
  | p :: rest =>
      if negb (in_limits limits (diam p))
      then close_patches h limits mesh bverts rest
      else
        _ <~ close_patch h mesh bverts p ;;
        close_patches h limits mesh bverts rest
  end.

(** Body of [for mesh, patches in self._meshes]. *)
Definition execute_mesh (h : Host) (limits : Q * Q)
  (entry : nat * list PatchSummary) : eff unit :=
  let '(mesh, patches) := entry in
  _ <~ perform h (FromEditMesh mesh) ;;
  bverts <~ (fun w => (Done (verts_of h w mesh), w)) ;;
  _ <~ close_patches h limits mesh bverts patches ;;
  perform h (UpdateEditMesh mesh).

Fixpoint execute_loop (h : Host) (limits : Q * Q)
  (meshes : list (nat * list PatchSummary)) : eff unit :=
  match meshes with
  | [] => eret tt
  | entry :: rest =>
      _ <~ execute_mesh h limits entry ;;
      execute_loop h limits rest
  end.

(** [execute]; [Done tt] stands for the returned [{'FINISHED'}]. *)
Definition execute (h : Host) (self : CloseSolidHoles) : eff unit :=
  execute_loop h (_limits self) (_meshes self).

(** [invoke]: detect, then apply.  The objects in edit mode come from the
    context. *)
Definition invoke (h : Host) (objects : list (nat * Mesh))
  (self : CloseSolidHoles)
  : list call -> (outcome unit * CloseSolidHoles) * list call :=
  fun w =>
    match _find_concave_patches objects self with
    | (Done _, self') =>
        let '(r, w') := execute h self' w in ((r, self'), w')
    | (r, self') => ((r, self'), w)
    end.

(** ** Vocabulary of the statements *)


(** [flags'] is [flags] with some [True] entries turned to [False]. *)
Definition cleared_only (flags flags' : list bool) : Prop :=
  length flags' = length flags
  /\ forall j, nth_error flags' j = nth_error flags j
               \/ (nth_error flags j = Some true
                   /\ nth_error flags' j = Some false).

(** What one pass over the loops of a face does to the flags and the
    stack: it pushes distinct faces that were flagged, and clears exactly
    their flags. *)
Record pushes (flags : list bool) (stack : list nat)
  (flags' : list bool) (stack' : list nat) (new : list nat) : Prop := {
  pushes_stack : stack' = new ++ stack;
  pushes_nodup : NoDup new;
  pushes_were_set : forall i, In i new -> nth_error flags i = Some true;
  pushes_now_clear : forall i, In i new -> nth_error flags' i = Some false;
  pushes_others : forall j, ~ In j new -> nth_error flags' j = nth_error flags j;
  pushes_length : length flags' = length flags;
  pushes_count : count_true flags = length new + count_true flags'
}.

(** The state of the outer loop, against the flags it started from: the
    recorded patches hold distinct faces, each eligible at the start and
    cleared since, and no patch is a singleton. *)
Record segmented (flags0 flags : list bool) (patches : list (list nat))
  : Prop := {
  seg_flags : cleared_only flags0 flags;
  seg_nodup : NoDup (concat patches);
  seg_eligible :
    forall i, In i (concat patches) -> nth_error flags0 i = Some true;
  seg_cleared :
    forall i, In i (concat patches) -> nth_error flags i = Some false;
  seg_size : Forall (fun p => 2 <= length p) patches
}.

(** The face a patch was seeded from: the first index of its list. *)
Definition seeds (patches : list (list nat)) : list nat :=
  map (hd 0) patches.

(** Every radial neighbour is a face of the mesh, and the snapshot arrays
    have one entry per face. *)
Definition in_range (bfaces : Mesh) (centrs : list vec) (flags : list bool)
  : Prop :=
  length bfaces = length flags
  /\ length centrs = length flags
  /\ forall f i2, In f bfaces -> In i2 (radial f) -> i2 < length flags.

(** Two faces that segmentation cannot tell apart: equal numbers in their
    normals and centroids, the same selection and the same neighbours. *)
Definition face_equiv (f g : Face) : Prop :=
  veq (normal f) (normal g)
  /\ veq (center f) (center g)
  /\ select f = select g
  /\ radial f = radial g.

Definition mesh_equiv (m1 m2 : Mesh) : Prop := Forall2 face_equiv m1 m2.

(** The axis the plurality of votes goes to, lowest axis first on ties:
    the first of the three axes whose count no other axis exceeds. *)
Definition plurality (dirs : list nat) : nat :=
  let votes := count_occ Nat.eq_dec dirs in
  if (votes 1 <=? votes 0) && (votes 2 <=? votes 0) then 0
  else if votes 2 <=? votes 1 then 1
  else 2.

(** Sum of points. *)
Definition vsum (pts : list vec) : vec :=
  fold_right vadd (0, 0, 0)%Q pts.

(** ** Sample inputs *)

(** Three selected faces: a floor facing +z and two walls facing +x whose
    centroids lie above the floor. *)
Definition floor_face : Face :=
  {| normal := (0, 0, 1)%Q; center := (0, 0, 0)%Q; select := true;
     vertices := [0; 1; 2; 3]; radial := [1; 2; 0; 0] |}.

Definition wall_near : Face :=
  {| normal := (1, 0, 0)%Q; center := (1, 0, 1)%Q; select := true;
     vertices := [1; 2; 4; 5]; radial := [0; 1; 1; 1] |}.

Definition wall_far : Face :=
  {| normal := (1, 0, 0)%Q; center := (2, 0, 1)%Q; select := true;
     vertices := [0; 3; 6; 7]; radial := [0; 2; 2; 2] |}.

Definition pocket : Mesh := [floor_face; wall_near; wall_far].

(** A selected face far above the pocket, bounded by open edges. *)
Definition lid : Face :=
  {| normal := (0, 0, 1)%Q; center := (0, 0, 5)%Q; select := true;
     vertices := [8; 9; 10; 11]; radial := [3; 3; 3; 3] |}.

Definition pocket_and_lid : Mesh := pocket ++ [lid].

(** Scenario B: a second pocket, a copy of the first moved far along x. *)
Definition far_pocket : Mesh :=
  map (fun f =>
         {| normal := normal f;
            center := vadd (center f) (100, 0, 0)%Q;
            select := select f;
            vertices := map (Nat.add 8) (vertices f);
            radial := map (Nat.add 3) (radial f) |}) pocket.

Definition two_pockets : Mesh := pocket ++ far_pocket.

(** The pocket with the same numbers written as other fractions. *)
Definition pocket_rescaled : Mesh :=
  [ {| normal := (0, 0, 2 # 2)%Q; center := (0, 0 # 3, 0)%Q; select := true;
       vertices := [0; 1; 2; 3]; radial := [1; 2; 0; 0] |};
    {| normal := (3 # 3, 0, 0)%Q; center := (2 # 2, 0, 1)%Q; select := true;
       vertices := [1; 2; 4; 5]; radial := [0; 1; 1; 1] |};
    {| normal := (1, 0, 0)%Q; center := (4 # 2, 0, 5 # 5)%Q; select := true;
       vertices := [0; 3; 6; 7]; radial := [0; 2; 2; 2] |} ].

(** A summary with a given diameter. *)
Definition sized (d : Q) : PatchSummary :=
  {| vindcs := [0; 1; 2]; centr := (0, 0, 0)%Q; diam := d |}.

(** A host with eight vertices per mesh whose calls never raise. *)
Definition quiet_host : Host :=
  {| verts_of := fun _ _ => seq 0 8; raises := fun _ _ => None |}.

(** A host that refuses to merge vertices of mesh 0. *)
Definition picky_host : Host :=
  {| verts_of := fun _ _ => seq 0 8;
     raises := fun _ c =>
       match c with
       | PointMerge 0 _ _ => Some RuntimeError
       | _ => None
       end |}.

(** ** Further vocabulary *)

(** A directed concave edge: [x] is a radial neighbour of face [y] and the
    test of the flood fill holds from [y] to [x]. *)
Definition concave_edge (bfaces : Mesh) (centrs : list vec) (y x : nat)
  : Prop :=
  exists f cy cx,
    nth_error bfaces y = Some f
    /\ nth_error centrs y = Some cy
    /\ nth_error centrs x = Some cx
    /\ In x (radial f)
    /\ concave (normal f) cy cx = true.

(** Every face of the list but the first was reached over a concave edge
    from a face earlier in the list. *)
Definition grown_from_seed (bfaces : Mesh) (centrs : list vec)
  (p : list nat) : Prop :=
  forall k x,
    nth_error p (S k) = Some x ->
    exists j y,
      j <= k /\ nth_error p j = Some y /\ concave_edge bfaces centrs y x.

(** The traversal invariant behind [grown_from_seed]: every collected or
    stacked face is the seed or has a parent among the collected ones. *)
Record rooted (bfaces : Mesh) (centrs : list vec) (seed : nat)
  (findcs stack : list nat) : Prop := {
  rooted_collected :
    forall k x, nth_error findcs k = Some x ->
      x = seed
      \/ exists j y, j < k /\ nth_error findcs j = Some y
                     /\ concave_edge bfaces centrs y x;
  rooted_stacked :
    forall x, In x stack ->
      x = seed \/ exists y, In y findcs /\ concave_edge bfaces centrs y x
}.


(** The cache detection leaves: the entries of the objects up to the first
    one whose detection does not complete. *)
Fixpoint cache_prefix (objects : list (nat * Mesh))
  : list (nat * list PatchSummary) :=
  match objects with
  | [] => []
  | (data, polys) :: rest =>
      match find_patches polys with
      | Done patches2 => (data, patches2) :: cache_prefix rest
      | _ => []
      end
  end.

(** The outcome of detection: that of the first object whose detection
    does not complete, if there is one. *)
Fixpoint first_failure (objects : list (nat * Mesh)) : outcome unit :=
  match objects with
  | [] => Done tt
  | (_, polys) :: rest =>
      match find_patches polys with
      | Done _ => first_failure rest
      | Raised e => Raised e
      | OutOfFuel => OutOfFuel
      end
  end.

(** The mesh a call is made on. *)
Definition call_mesh (c : call) : nat :=
  match c with
  | FromEditMesh m => m
  | PointMerge m _ _ => m
  | DissolveVerts m _ => m
  | UpdateEditMesh m => m
  end.

Definition is_commit (c : call) : bool :=
  match c with
  | UpdateEditMesh _ => true
  | _ => false
  end.

Definition is_open (c : call) : bool :=
  match c with
  | FromEditMesh _ => true
  | _ => false
  end.

(** Two faces meeting at a crease, both facing mostly +z. *)
Definition crease : Mesh :=
  [ {| normal := (0, 0, 1)%Q; center := (0, 0, 0)%Q; select := true;
       vertices := [0; 1; 2; 3]; radial := [1; 0; 0; 0] |};
    {| normal := (3 # 5, 0, 4 # 5)%Q; center := (1, 0, 1)%Q; select := true;
       vertices := [1; 2; 4; 5]; radial := [0; 1; 1; 1] |} ].

(** Every concave edge leaving a recorded patch leads back into it, unless
    its target was not available when the patch was grown: not selected,
    taken by a patch recorded before, or an earlier seed whose traversal
    was dropped. *)
Definition closed_under_edges (bfaces : Mesh) (centrs : list vec)
  (flags0 : list bool) (patches : list (list nat)) : Prop :=
  forall before p after y x,
    patches = before ++ p :: after ->
    In y p ->
    concave_edge bfaces centrs y x ->
    In x p
    \/ nth_error flags0 x = Some false
    \/ In x (concat before)
    \/ x < hd 0 p.

(** The faces no longer flagged are those never selected, those of the
    recorded patches, and seeds already passed. *)
Definition taken_so_far (flags0 flags : list bool)
  (patches : list (list nat)) (next : nat) : Prop :=
  forall x,
    nth_error flags x = Some false ->
    nth_error flags0 x = Some false \/ In x (concat patches) \/ x < next.

(** * Select Similar: [ops/select_similar.py]

    The operator [SelectSimilar].  Sampling a surface is random and
    plotting writes files: both are outside the embedding.  The histogram
    [get_shape_distrib] returns for an object in one run is taken from the
    host, each object being sampled once per run; plots and reports are
    recorded as events. *)

From Stdlib Require String.
Import String.StringSyntax.
Delimit Scope string_scope with string.

Module SelectSimilar.

(** [{'FINISHED'}] and [{'CANCELLED'}]. *)
Inductive status : Type :=
| FINISHED
| CANCELLED.

(** The class attributes [_sim_limits], [_samplecnt], [bincnt] and the
    dict [svals], kept in insertion order. *)
Record state : Type := {
  _sim_limits : Q * Q;
  _samplecnt : Z;
  bincnt : Z;
  svals : list (String.string * Q)
}.

(** [_sim_limits = (0, 1)], [_samplecnt = 512], [bincnt = 32],
    [svals = {}]. *)
Definition initial : state :=
  {| _sim_limits := (0, 1)%Q; _samplecnt := 512%Z; bincnt := 32%Z;
     svals := [] |}.

Definition _get_sim_limits (self : state) : Q * Q := _sim_limits self.

(** [SelectSimilar._sim_limits = (min(val), val[1])]. *)
Definition _set_sim_limits (self : state) (val : Q * Q) : state :=
  {| _sim_limits := (py_min val, snd val); _samplecnt := _samplecnt self;
     bincnt := bincnt self; svals := svals self |}.

Definition _get_samplecnt (self : state) : Z := _samplecnt self.

(** [_set_samplecnt]: the count is stored first; [math.sqrt] raises
    ValueError on a negative argument, and [bincnt] then keeps its value.
    [ceil(sqrt(val))] is taken exactly. *)
Definition _set_samplecnt (self : state) (val : Z) : outcome unit * state :=
  let stored :=
    {| _sim_limits := _sim_limits self; _samplecnt := val;
       bincnt := bincnt self; svals := svals self |} in
  if (val <? 0)%Z then (Raised ValueError, stored)
  else
    (Done tt,
     {| _sim_limits := _sim_limits self; _samplecnt := val;
        bincnt := Z.sqrt_up val; svals := svals self |}).

(** What the operator does to its surroundings. *)
Inductive event : Type :=
| Report (kind message : String.string)
| SaveBarPlot (filename : String.string)
| SelectSet (name : String.string) (selected : bool).

(** How a call ends: with a returned value, or with the KeyError of
    [bpy.data.objects[name]] or another exception. *)
Inductive result (A : Type) : Type :=
| Returned (a : A)
| KeyError (name : String.string)
| Failed (e : exn).

Arguments Returned {A} a.
Arguments KeyError {A} name.
Arguments Failed {A} e.

(** [mins <= simval < maxs]. *)
Definition similar (limits : Q * Q) (simval : Q) : bool :=
  Qle_bool (fst limits) simval && Qltb simval (snd limits).

(** [for name, simval in self.svals.items()], with [known] telling which
    names [bpy.data.objects] holds. *)
Fixpoint select_loop (known : String.string -> bool) (limits : Q * Q)
  (items : list (String.string * Q)) (w : list event)
  : result status * list event :=
  match items with
  | [] => (Returned FINISHED, w)
  | (name, simval) :: rest =>
      if known name
      then select_loop known limits rest
             (w ++ [SelectSet name (similar limits simval)])
      else (KeyError name, w)
  end.

(** [execute]. *)
Definition execute (known : String.string -> bool) (self : state)
  (w : list event) : result status * list event :=
  match svals self with
  | [] =>
      (Returned CANCELLED,
       w ++ [Report "ERROR_INVALID_INPUT"%string "Sample first"%string])
  | items => select_loop known (_get_sim_limits self) items w
  end.

(** An object of the scene: its name, whether its type is ['MESH'], and
    its identity. *)
Record Obj : Type := {
  name : String.string;
  is_mesh : bool;
  ident : nat
}.

(** The parts of the context the operator reads. *)
Record Context : Type := {
  mode_is_object : bool;
  object : option Obj;
  selected_objects : list Obj;
  collection_objects : list Obj
}.

(** [poll]. *)
Definition poll (context : Context) : bool :=
  mode_is_object context
  && match object context with
     | Some ob => is_mesh ob
     | None => false
     end.

(** [self.svals[key] = value]: a key already present keeps its place. *)
Fixpoint dict_set (d : list (String.string * Q)) (key : String.string)
  (value : Q) : list (String.string * Q) :=
  match d with
  | [] => [(key, value)]
  | (k, v) :: rest =>
      if String.eqb k key then (k, value) :: rest
      else (k, v) :: dict_set rest key value
  end.

(** [np.linalg.norm(ohist - ahist, ord=1)] of two histograms with the
    same number of bins. *)
Fixpoint l1_distance (ohist ahist : list Q) : Q :=
  match ohist, ahist with
  | o :: orest, a :: arest => (Qabs (o - a) + l1_distance orest arest)%Q
  | _, _ => 0%Q
  end.

(** [for o in selobs] of [_comp_shape_distribs].  The state is the dict
    and the flag [all_type_err]. *)
Fixpoint compare_loop (distrib : Obj -> outcome (list Q)) (ob : Obj)
  (ahist : list Q) (selobs : list Obj)
  (sv : list (String.string * Q)) (all_type_err : bool) (w : list event)
  : result bool * list (String.string * Q) * list event :=
  match selobs with
  | [] =>
      if all_type_err
      then (Returned false, sv,
            w ++ [Report "ERROR_INVALID_INPUT"%string
                    "An object must be of type mesh"%string])
      else (Returned true, sv, w)
  | o :: rest =>
      if negb (is_mesh o) || Nat.eqb (ident o) (ident ob)
      then compare_loop distrib ob ahist rest sv all_type_err w
      else
        match distrib o with
        | Done ohist =>
            compare_loop distrib ob ahist rest
              (dict_set sv (name o) (l1_distance ohist ahist)) false
              (w ++ [SaveBarPlot (name o)])
        | Raised e => (Failed e, sv, w)
        | OutOfFuel => (Failed RuntimeError, sv, w)
        end
  end.

(** The objects compared: the selection if it has at least two objects,
    the active collection otherwise. *)
Definition selobs_of (context : Context) : list Obj :=
  if length (selected_objects context) <? 2
  then collection_objects context
  else selected_objects context.

(** [_comp_shape_distribs], for a context with an active object. *)
Definition _comp_shape_distribs (distrib : Obj -> outcome (list Q))
  (context : Context) (ob : Obj) (self : state) (w : list event)
  : result bool * state * list event :=
  let with_svals sv :=
    {| _sim_limits := _sim_limits self; _samplecnt := _samplecnt self;
       bincnt := bincnt self; svals := sv |} in
  match distrib ob with
  | Done ahist =>
      let '(r, sv, w') :=
        compare_loop distrib ob ahist (selobs_of context) [] true
          (w ++ [SaveBarPlot (name ob)]) in
      (r, with_svals sv, w')
  | Raised e => (Failed e, with_svals [], w)
  | OutOfFuel => (Failed RuntimeError, with_svals [], w)
  end.

(** [invoke]. *)
Definition invoke (distrib : Obj -> outcome (list Q))
  (known : String.string -> bool) (context : Context) (ob : Obj)
  (self : state) (w : list event)
  : result status * state * list event :=
  match _comp_shape_distribs distrib context ob self w with
  | (Returned true, self', w') =>
      let '(r, w'') := execute known self' w' in (r, self', w'')
  | (Returned false, self', w') => (Returned CANCELLED, self', w')
  | (KeyError n, self', w') => (KeyError n, self', w')
  | (Failed e, self', w') => (Failed e, self', w')
  end.

(** A scene: a cube (active), a sphere, a lamp and a cone. *)
Definition cube : Obj :=
  {| name := "Cube"%string; is_mesh := true; ident := 0 |}.
Definition sphere : Obj :=
  {| name := "Sphere"%string; is_mesh := true; ident := 1 |}.
Definition lamp : Obj :=
  {| name := "Lamp"%string; is_mesh := false; ident := 2 |}.
Definition cone : Obj :=
  {| name := "Cone"%string; is_mesh := true; ident := 3 |}.

Definition scene : Context :=
  {| mode_is_object := true; object := Some cube;
     selected_objects := [cube];
     collection_objects := [cube; sphere; lamp; cone] |}.

(** Histograms of two bins for the scene. *)
Definition scene_distrib (o : Obj) : outcome (list Q) :=
  match ident o with
  | 0 => Done [1 # 2; 1 # 2]%Q
  | 1 => Done [3 # 4; 1 # 4]%Q
  | 3 => Done [0; 1]%Q
  | _ => Raised ValueError
  end.

End SelectSimilar.

(** The objects [_comp_shape_distribs] samples besides the active one:
    meshes other than the active object itself. *)
Definition compared_with (ob o : SelectSimilar.Obj) : bool :=
  SelectSimilar.is_mesh o
  && negb (Nat.eqb (SelectSimilar.ident o) (SelectSimilar.ident ob)).

(** * Properties *)

(** ** Scalars *)

Lemma Qltb_lt (a b : Q) : Qltb a b = true <-> (a < b)%Q.
Proof.
  unfold Qltb. rewrite negb_true_iff.
  split; intro H.
  - apply Qnot_le_lt. intro Hle. apply Qle_bool_iff in Hle. congruence.
  - destruct (Qle_bool b a) eqn:E; [|reflexivity].
    apply Qle_bool_iff in E. exfalso. exact (Qlt_not_le _ _ H E).
Qed.

Lemma Qltb_ge (a b : Q) : Qltb a b = false <-> (b <= a)%Q.
Proof.
  unfold Qltb. rewrite negb_false_iff. apply Qle_bool_iff.
Qed.

Lemma Qltb_irrefl (a : Q) : Qltb a a = false.
Proof. apply Qltb_ge. apply Qle_refl. Qed.

(** ** Arrays *)

Lemma getitem_done {A : Type} (l : list A) (i : nat) (a : A) :
  getitem l i = Done a <-> nth_error l i = Some a.
Proof.
  unfold getitem. destruct (nth_error l i); split; intro H;
    inversion H; reflexivity.
Qed.

Lemma getitem_no_timeout {A : Type} (l : list A) (i : nat) :
  getitem l i <> OutOfFuel.
Proof. unfold getitem. destruct (nth_error l i); discriminate. Qed.

Lemma getitem_in_range {A : Type} (l : list A) (i : nat) :
  i < length l -> exists a, getitem l i = Done a.
Proof.
  intro H. unfold getitem. destruct (nth_error l i) as [a|] eqn:E; eauto.
  apply nth_error_None in E. lia.
Qed.

Lemma length_setitem {A : Type} (l : list A) (i : nat) (v : A) :
  length (setitem l i v) = length l.
Proof.
  revert i. induction l as [|h t IH]; intros [|j]; simpl; auto.
Qed.

Lemma nth_error_setitem_eq {A : Type} (l : list A) (i : nat) (v : A) :
  i < length l -> nth_error (setitem l i v) i = Some v.
Proof.
  revert i. induction l as [|h t IH]; intros [|j] H; simpl in *; try lia; auto.
  apply IH. lia.
Qed.

Lemma nth_error_setitem_neq {A : Type} (l : list A) (i j : nat) (v : A) :
  i <> j -> nth_error (setitem l i v) j = nth_error l j.
Proof.
  revert i j. induction l as [|h t IH]; intros [|i] [|j] H; simpl; auto;
    try congruence.
Qed.

Lemma count_true_setitem (flags : list bool) (i : nat) :
  nth_error flags i = Some true ->
  count_true flags = S (count_true (setitem flags i false)).
Proof.
  unfold count_true. revert i.
  induction flags as [|b t IH]; intros [|j] H; simpl in *; try discriminate.
  - inversion H; subst. reflexivity.
  - destruct b; simpl; rewrite (IH j H); reflexivity.
Qed.

(** ** Flags are only ever cleared *)

Lemma cleared_only_refl (flags : list bool) : cleared_only flags flags.
Proof. split; auto. Qed.

Lemma cleared_only_trans (f1 f2 f3 : list bool) :
  cleared_only f1 f2 -> cleared_only f2 f3 -> cleared_only f1 f3.
Proof.
  intros [L12 H12] [L23 H23]. split; [congruence|].
  intro j. destruct (H12 j) as [E|[E1 E2]], (H23 j) as [F|[F1 F2]].
  - left. congruence.
  - right. split; congruence.
  - right. split; congruence.
  - congruence.
Qed.

Lemma cleared_only_setitem (flags : list bool) (i : nat) :
  nth_error flags i = Some true -> cleared_only flags (setitem flags i false).
Proof.
  intro H. split; [apply length_setitem|].
  intro j. destruct (Nat.eq_dec i j) as [->|Hne].
  - right. split; [exact H|]. apply nth_error_setitem_eq.
    apply nth_error_Some. congruence.
  - left. now apply nth_error_setitem_neq.
Qed.

Lemma cleared_only_false (flags flags' : list bool) (j : nat) :
  cleared_only flags flags' ->
  nth_error flags j = Some false -> nth_error flags' j = Some false.
Proof.
  intros [_ H] E. destruct (H j) as [F|[F _]]; congruence.
Qed.

Lemma cleared_only_true (flags flags' : list bool) (j : nat) :
  cleared_only flags flags' ->
  nth_error flags' j = Some true -> nth_error flags j = Some true.
Proof.
  intros [_ H] E. destruct (H j) as [F|[_ F]]; congruence.
Qed.

(** ** One neighbour *)

Lemma visit_cases (centrs : list vec) (n c : vec) (flags : list bool)
  (stack : list nat) (i2 : nat) (flags' : list bool) (stack' : list nat) :
  visit centrs n c (flags, stack) i2 = Done (flags', stack') ->
  (flags' = flags /\ stack' = stack)
  \/ (nth_error flags i2 = Some true
      /\ (exists c2, nth_error centrs i2 = Some c2 /\ concave n c c2 = true)
      /\ flags' = setitem flags i2 false /\ stack' = i2 :: stack).
Proof.
  unfold visit, getitem.
  destruct (nth_error flags i2) as [[|]|] eqn:Ef; simpl; try discriminate.
  - destruct (nth_error centrs i2) as [c2|] eqn:Ec; simpl; try discriminate.
    destruct (concave n c c2) eqn:Ek; intro H; inversion H; subst; auto.
    right. repeat split; eauto.
  - intro H; inversion H; subst; auto.
Qed.

Lemma visit_no_timeout (centrs : list vec) (n c : vec)
  (st : list bool * list nat) (i2 : nat) :
  visit centrs n c st i2 <> OutOfFuel.
Proof.
  destruct st as [flags stack]. unfold visit, getitem.
  destruct (nth_error flags i2) as [[|]|]; simpl; try discriminate.
  destruct (nth_error centrs i2) as [c2|]; simpl; try discriminate.
  destruct (concave n c c2); discriminate.
Qed.

Lemma pushes_nil (flags : list bool) (stack : list nat) :
  pushes flags stack flags stack [].
Proof. constructor; simpl; auto using NoDup_nil; intros i []. Qed.

Lemma pushes_one (flags : list bool) (stack : list nat) (i2 : nat) :
  nth_error flags i2 = Some true ->
  pushes flags stack (setitem flags i2 false) (i2 :: stack) [i2].
Proof.
  intro H.
  assert (Hlt : i2 < length flags) by (apply nth_error_Some; congruence).
  constructor; simpl.
  - reflexivity.
  - constructor; [intros []|constructor].
  - intros i [<-|[]]. exact H.
  - intros i [<-|[]]. now apply nth_error_setitem_eq.
  - intros j Hj. apply nth_error_setitem_neq. tauto.
  - apply length_setitem.
  - now apply count_true_setitem.
Qed.

Lemma pushes_trans (f1 f2 f3 : list bool) (s1 s2 s3 new1 new2 : list nat) :
  pushes f1 s1 f2 s2 new1 -> pushes f2 s2 f3 s3 new2 ->
  pushes f1 s1 f3 s3 (new2 ++ new1).
Proof.
  intros [S1 N1 W1 C1 O1 L1 K1] [S2 N2 W2 C2 O2 L2 K2].
  assert (Hdisj : forall i, In i new2 -> ~ In i new1).
  { intros i H2 H1. specialize (W2 i H2). specialize (C1 i H1). congruence. }
  constructor.
  - subst. now rewrite app_assoc.
  - apply NoDup_app; auto.
  - intros i Hi. apply in_app_or in Hi. destruct Hi as [Hi|Hi]; auto.
    rewrite <- (O1 i); auto.
  - intros i Hi. apply in_app_or in Hi. destruct Hi as [Hi|Hi]; auto.
    destruct (in_dec Nat.eq_dec i new2) as [H2|H2]; auto.
    rewrite (O2 i H2). auto.
  - intros j Hj. rewrite O2, O1; auto; intro Hin; apply Hj, in_or_app; auto.
  - congruence.
  - rewrite length_app. lia.
Qed.

Lemma foldM_cons {A S : Type} (body : S -> A -> outcome S) (x : A)
  (rest : list A) (s : S) :
  foldM body (x :: rest) s = (s' <- body s x ;; foldM body rest s').
Proof. reflexivity. Qed.

Lemma loops_pushes (centrs : list vec) (n c : vec) (loops : list nat) :
  forall flags stack flags' stack',
    foldM (visit centrs n c) loops (flags, stack) = Done (flags', stack') ->
    exists new, pushes flags stack flags' stack' new /\ incl new loops.
Proof.
  induction loops as [|i2 rest IH]; intros flags stack flags' stack' H.
  - inversion H; subst. exists []. split; [apply pushes_nil|intros x []].
  - rewrite foldM_cons in H.
    destruct (visit centrs n c (flags, stack) i2) as [[f1 s1]| |] eqn:E;
      simpl in H; try discriminate.
    apply IH in H. destruct H as (new2 & P2 & I2).
    apply visit_cases in E.
    destruct E as [[-> ->]|(Hset & _ & -> & ->)].
    + exists new2. split; [exact P2|]. intros x Hx. right. auto.
    + exists (new2 ++ [i2]). split.
      * eapply pushes_trans; [apply pushes_one; exact Hset|exact P2].
      * intros x Hx. apply in_app_or in Hx. destruct Hx as [Hx|[<-|[]]].
        -- right. auto.
        -- left. reflexivity.
Qed.

Lemma pushes_cleared_only (flags : list bool) (stack : list nat)
  (flags' : list bool) (stack' new : list nat) :
  pushes flags stack flags' stack' new -> cleared_only flags flags'.
Proof.
  intros [S N W C O L K]. split; [exact L|].
  intro j. destruct (in_dec Nat.eq_dec j new) as [Hj|Hj]; auto.
Qed.

Lemma foldM_no_timeout {A S : Type} (body : S -> A -> outcome S)
  (l : list A) :
  (forall s x, body s x <> OutOfFuel) ->
  forall s, foldM body l s <> OutOfFuel.
Proof.
  intro Hbody. induction l as [|x rest IH]; intro s; simpl; [discriminate|].
  destruct (body s x) as [s'| |] eqn:E; simpl; try discriminate.
  - apply IH.
  - exfalso. exact (Hbody s x E).
Qed.

(** ** One traversal *)

Section Traversal.

Variable bfaces : Mesh.
Variable centrs : list vec.

Lemma flood_nil (fuel : nat) (flags : list bool) (findcs : list nat) :
  flood bfaces centrs fuel [] flags findcs = Done (flags, findcs).
Proof. destruct fuel; reflexivity. Qed.

Lemma flood_cons (fuel : nat) (fi : nat) (stack : list nat)
  (flags : list bool) (findcs : list nat) :
  flood bfaces centrs (S fuel) (fi :: stack) flags findcs
  = (f <- getitem bfaces fi ;;
     c <- getitem centrs fi ;;
     st <- foldM (visit centrs (normal f) c) (radial f) (flags, stack) ;;
     flood bfaces centrs fuel (snd st) (fst st) (findcs ++ [fi])).
Proof.
  simpl. destruct (getitem bfaces fi) as [f| |]; simpl; auto.
  destruct (getitem centrs fi) as [c| |]; simpl; auto.
  destruct (foldM (visit centrs (normal f) c) (radial f) (flags, stack))
    as [[f1 s1]| |]; reflexivity.
Qed.

(** The while loop ends within the fuel it is given: every pop is paid
    for by the popped entry, and every push by a flag it cleared. *)
Lemma flood_fuel (fuel : nat) :
  forall (stack : list nat) (flags : list bool) (findcs : list nat),
    length stack + count_true flags <= fuel ->
    flood bfaces centrs fuel stack flags findcs <> OutOfFuel.
Proof.
  induction fuel as [|fuel IH]; intros [|fi stack] flags findcs Hfuel;
    try (rewrite flood_nil; discriminate).
  - simpl in Hfuel. lia.
  - rewrite flood_cons.
    destruct (getitem bfaces fi) as [f| |] eqn:Ef; simpl; try discriminate.
    2: exfalso; exact (getitem_no_timeout _ _ Ef).
    destruct (getitem centrs fi) as [c| |] eqn:Ec; simpl; try discriminate.
    2: exfalso; exact (getitem_no_timeout _ _ Ec).
    destruct (foldM (visit centrs (normal f) c) (radial f) (flags, stack))
      as [[f1 s1]| |] eqn:El; simpl; try discriminate.
    + apply loops_pushes in El. destruct El as (new & P & _).
      apply IH. rewrite (pushes_stack P), length_app.
      pose proof (pushes_count P). simpl in Hfuel. lia.
    + exfalso. revert El. apply foldM_no_timeout. apply visit_no_timeout.
Qed.

Lemma reorder_popped (findcs stack new : list nat) (fi : nat) :
  Permutation (new ++ findcs ++ fi :: stack)
              ((findcs ++ [fi]) ++ new ++ stack).
Proof.
  rewrite <- app_assoc. simpl.
  etransitivity; [apply Permutation_app_comm|].
  rewrite <- app_assoc. apply Permutation_app_head. simpl.
  apply perm_skip. apply Permutation_app_comm.
Qed.

(** What a traversal returns, from a state in which the faces collected or
    stacked so far are distinct and have their flags cleared. *)
Lemma flood_spec (fuel : nat) :
  forall (stack : list nat) (flags : list bool) (findcs : list nat)
         (flags' : list bool) (r : list nat),
    flood bfaces centrs fuel stack flags findcs = Done (flags', r) ->
    NoDup (findcs ++ stack) ->
    (forall i, In i (findcs ++ stack) -> nth_error flags i = Some false) ->
    cleared_only flags flags'
    /\ NoDup r
    /\ (exists t, r = findcs ++ t /\ incl stack t
                   /\ hd_error t = hd_error stack)
    /\ (forall i, In i r -> nth_error flags' i = Some false)
    /\ (forall i, In i r ->
          In i (findcs ++ stack) \/ nth_error flags i = Some true).
Proof.
  induction fuel as [|fuel IH]; intros [|fi stack] flags findcs flags' r H Hnd Hcl.
  1, 3: rewrite flood_nil in H; inversion H; subst;
        rewrite app_nil_r in *;
        repeat split; auto using cleared_only_refl;
        exists []; rewrite app_nil_r; repeat split; auto using incl_nil_l.
  - discriminate.
  - rewrite flood_cons in H.
    destruct (getitem bfaces fi) as [f| |]; simpl in H; try discriminate.
    destruct (getitem centrs fi) as [c| |]; simpl in H; try discriminate.
    destruct (foldM (visit centrs (normal f) c) (radial f) (flags, stack))
      as [[f1 s1]| |] eqn:El; simpl in H; try discriminate.
    apply loops_pushes in El. destruct El as (new & P & _).
    pose proof (pushes_cleared_only P) as Hco.
    rewrite (pushes_stack P) in H.
    assert (Hfresh : forall a, In a new -> ~ In a (findcs ++ fi :: stack)).
    { intros a Ha Hin. pose proof (pushes_were_set P a Ha).
      specialize (Hcl a Hin). congruence. }
    apply IH in H.
    + destruct H as (Hco' & Hr & (t & Ht & Hincl & _) & Hclr & Horigin).
      split; [eapply cleared_only_trans; eassumption|].
      split; [exact Hr|].
      split.
      { exists (fi :: t). rewrite Ht, <- app_assoc. repeat split.
        intros a [<-|Ha]; [now left|right].
        apply Hincl, in_or_app. now right. }
      split; [exact Hclr|].
      intros i Hi. destruct (Horigin i Hi) as [Hin|Htrue].
      * apply (Permutation_in i (Permutation_sym
                 (reorder_popped findcs stack new fi))) in Hin.
        apply in_app_or in Hin. destruct Hin as [Hin|Hin]; [|auto].
        right. exact (pushes_were_set P i Hin).
      * right. eapply cleared_only_true; eassumption.
    + eapply Permutation_NoDup; [apply reorder_popped|].
      apply NoDup_app; auto. exact (pushes_nodup P).
    + intros i Hi.
      apply (Permutation_in i (Permutation_sym
               (reorder_popped findcs stack new fi))) in Hi.
      apply in_app_or in Hi. destruct Hi as [Hi|Hi].
      * exact (pushes_now_clear P i Hi).
      * eapply cleared_only_false; eauto.
Qed.

End Traversal.

(** ** The outer loop *)

Section Segmentation.

Variable bfaces : Mesh.
Variable centrs : list vec.

Lemma seed_step_skip (flags : list bool) (patches : list (list nat))
  (i : nat) :
  nth_error flags i = Some false ->
  seed_step bfaces centrs (flags, patches) i = Done (flags, patches).
Proof. intro H. unfold seed_step, getitem. rewrite H. reflexivity. Qed.

Lemma seed_step_seed (flags : list bool) (patches : list (list nat))
  (i : nat) :
  nth_error flags i = Some true ->
  seed_step bfaces centrs (flags, patches) i
  = (r <- flood bfaces centrs (traversal_fuel (setitem flags i false)) [i]
            (setitem flags i false) [] ;;
     if 1 <? length (snd r)
     then Done (fst r, patches ++ [snd r])
     else Done (fst r, patches)).
Proof.
  intro H. unfold seed_step, getitem. rewrite H. cbn [bind negb].
  destruct (flood bfaces centrs (traversal_fuel (setitem flags i false)) [i]
              (setitem flags i false) []) as [[f r]| |]; reflexivity.
Qed.

Lemma seed_step_no_timeout (st : list bool * list (list nat)) (i : nat) :
  seed_step bfaces centrs st i <> OutOfFuel.
Proof.
  destruct st as [flags patches].
  destruct (nth_error flags i) as [[|]|] eqn:E.
  - rewrite seed_step_seed by exact E.
    destruct (flood bfaces centrs (traversal_fuel (setitem flags i false)) [i]
                (setitem flags i false) []) as [[f r]| |] eqn:Ef; simpl.
    + destruct (1 <? length r); discriminate.
    + discriminate.
    + exfalso. revert Ef. apply flood_fuel. unfold traversal_fuel. simpl. lia.
  - rewrite seed_step_skip by exact E. discriminate.
  - unfold seed_step, getitem. rewrite E. discriminate.
Qed.

(** The traversal started at a flagged face [i]. *)
Lemma seeded_traversal (flags : list bool) (i : nat) (flags' : list bool)
  (findcs : list nat) :
  nth_error flags i = Some true ->
  flood bfaces centrs (traversal_fuel (setitem flags i false)) [i]
    (setitem flags i false) [] = Done (flags', findcs) ->
  cleared_only flags flags'
  /\ NoDup findcs
  /\ hd_error findcs = Some i
  /\ (forall a, In a findcs -> nth_error flags' a = Some false)
  /\ (forall a, In a findcs -> nth_error flags a = Some true).
Proof.
  intros Hi Hf.
  assert (Hlt : i < length flags) by (apply nth_error_Some; congruence).
  pose proof (cleared_only_setitem flags i Hi) as Hset.
  apply flood_spec in Hf.
  - destruct Hf as (Hco & Hnd & (t & Ht & _ & Hhd) & Hclr & Horigin).
    simpl in Ht. subst t.
    split; [eapply cleared_only_trans; eassumption|].
    repeat split; auto.
    intros a Ha. destruct (Horigin a Ha) as [[<-|[]]|Htrue]; auto.
    eapply cleared_only_true; eassumption.
  - simpl. constructor; [intros []|constructor].
  - intros a [<-|[]]. now apply nth_error_setitem_eq.
Qed.

Lemma seed_step_segmented (flags0 flags : list bool)
  (patches : list (list nat)) (i : nat) (flags' : list bool)
  (patches' : list (list nat)) :
  segmented flags0 flags patches ->
  seed_step bfaces centrs (flags, patches) i = Done (flags', patches') ->
  segmented flags0 flags' patches'.
Proof.
  intros [Hfl Hnd Hel Hcl Hsz] H.
  destruct (nth_error flags i) as [[|]|] eqn:E.
  - rewrite seed_step_seed in H by exact E.
    destruct (flood bfaces centrs (traversal_fuel (setitem flags i false)) [i]
                (setitem flags i false) []) as [[f r]| |] eqn:Ef;
      simpl in H; try discriminate.
    apply seeded_traversal in Ef; [|exact E].
    destruct Ef as (Hco & Hr & _ & Hclr & Hset).
    assert (Hfl' : cleared_only flags0 f)
      by (eapply cleared_only_trans; eassumption).
    assert (Hcl' : forall a, In a (concat patches) ->
                             nth_error f a = Some false).
    { intros a Ha. apply (cleared_only_false a Hco). auto. }
    destruct (1 <? length r) eqn:Elen; inversion H; subst; clear H.
    + apply Nat.ltb_lt in Elen.
      assert (Hcat : concat (patches ++ [r]) = concat patches ++ r).
      { rewrite concat_app. simpl. now rewrite app_nil_r. }
      constructor; auto.
      * rewrite Hcat. apply NoDup_app; auto.
        intros a Ha Har. specialize (Hcl a Ha). specialize (Hset a Har).
        congruence.
      * intro a. rewrite Hcat. intro Ha. apply in_app_or in Ha.
        destruct Ha as [Ha|Ha]; auto.
        apply (cleared_only_true a Hfl). auto.
      * intro a. rewrite Hcat. intro Ha. apply in_app_or in Ha.
        destruct Ha as [Ha|Ha]; auto.
      * apply Forall_app. split; auto.
    + constructor; auto.
  - rewrite seed_step_skip in H by exact E. inversion H; subst.
    constructor; auto.
  - unfold seed_step, getitem in H. rewrite E in H. discriminate.
Qed.

Lemma seed_loop_segmented (flags0 : list bool) (idxs : list nat) :
  forall flags patches flags' patches',
    segmented flags0 flags patches ->
    foldM (seed_step bfaces centrs) idxs (flags, patches)
    = Done (flags', patches') ->
    segmented flags0 flags' patches'.
Proof.
  induction idxs as [|i rest IH]; intros flags patches flags' patches' Hs H.
  - inversion H; subst. exact Hs.
  - rewrite foldM_cons in H.
    destruct (seed_step bfaces centrs (flags, patches) i)
      as [[f1 p1]| |] eqn:E; simpl in H; try discriminate.
    eapply IH; [|exact H]. eapply seed_step_segmented; eassumption.
Qed.

Lemma segmented_start (flags : list bool) : segmented flags flags [].
Proof.
  constructor; simpl; auto using cleared_only_refl, NoDup_nil;
    intros i [].
Qed.

Lemma segment_from_segmented (flags flags' : list bool)
  (patches : list (list nat)) :
  segment_from bfaces centrs flags = Done (flags', patches) ->
  segmented flags flags' patches.
Proof.
  unfold segment_from. apply seed_loop_segmented. apply segmented_start.
Qed.

Lemma segment_from_no_timeout (flags : list bool) :
  segment_from bfaces centrs flags <> OutOfFuel.
Proof.
  unfold segment_from. apply foldM_no_timeout. apply seed_step_no_timeout.
Qed.

End Segmentation.

(** ** Well-formed meshes raise nothing *)

Section InRange.

Variable bfaces : Mesh.
Variable centrs : list vec.

Lemma loops_in_range (n c : vec) (loops : list nat) :
  forall (flags : list bool) (stack : list nat),
    length centrs = length flags ->
    (forall i2, In i2 loops -> i2 < length flags) ->
    exists st, foldM (visit centrs n c) loops (flags, stack) = Done st.
Proof.
  induction loops as [|i2 rest IH]; intros flags stack Hc Hr.
  - eexists. reflexivity.
  - rewrite foldM_cons.
    assert (Hi2 : i2 < length flags) by (apply Hr; now left).
    destruct (getitem_in_range flags Hi2) as [fl Hfl].
    assert (Hi2c : i2 < length centrs) by lia.
    destruct (getitem_in_range centrs Hi2c) as [c2 Hc2].
    unfold visit. rewrite Hfl. cbn [bind].
    destruct fl; [rewrite Hc2; cbn [bind]; destruct (concave n c c2)|];
      cbn [bind]; apply IH; rewrite ?length_setitem; auto;
      intros j Hj; apply Hr; now right.
Qed.

Lemma flood_in_range (fuel : nat) :
  forall (stack : list nat) (flags : list bool) (findcs : list nat) (e : exn),
    in_range bfaces centrs flags ->
    (forall i, In i stack -> i < length flags) ->
    flood bfaces centrs fuel stack flags findcs <> Raised e.
Proof.
  induction fuel as [|fuel IH]; intros [|fi stack] flags findcs e Hwf Hst;
    try (rewrite flood_nil; discriminate); try discriminate.
  destruct Hwf as (Hb & Hc & Hrad).
  rewrite flood_cons.
  assert (Hfi : fi < length flags) by (apply Hst; now left).
  assert (Hfb : fi < length bfaces) by lia.
  assert (Hfc : fi < length centrs) by lia.
  destruct (getitem_in_range bfaces Hfb) as [f Hf].
  destruct (getitem_in_range centrs Hfc) as [c Hcf].
  rewrite Hf, Hcf. cbn [bind].
  assert (Hloops : forall i2, In i2 (radial f) -> i2 < length flags).
  { intros i2 Hi2. apply (Hrad f); auto.
    apply getitem_done in Hf. eapply nth_error_In; eassumption. }
  destruct (loops_in_range (normal f) c (radial f) flags stack Hc Hloops)
    as [[f1 s1] Hl].
  rewrite Hl. cbn [bind fst snd].
  apply loops_pushes in Hl. destruct Hl as (new & P & Hincl).
  pose proof (pushes_length P) as Hlen.
  apply IH.
  - unfold in_range. rewrite Hlen. auto.
  - rewrite Hlen, (pushes_stack P). intros i Hi.
    apply in_app_or in Hi. destruct Hi as [Hi|Hi].
    + apply Hloops, Hincl, Hi.
    + apply Hst. now right.
Qed.

Lemma seed_step_flags (flags : list bool) (patches : list (list nat))
  (i : nat) (flags' : list bool) (patches' : list (list nat)) :
  seed_step bfaces centrs (flags, patches) i = Done (flags', patches') ->
  cleared_only flags flags'
  /\ (patches' = patches
      \/ exists r, patches' = patches ++ [r] /\ hd_error r = Some i).
Proof.
  intro H. destruct (nth_error flags i) as [[|]|] eqn:E.
  - rewrite seed_step_seed in H by exact E.
    destruct (flood bfaces centrs (traversal_fuel (setitem flags i false)) [i]
                (setitem flags i false) []) as [[f r]| |] eqn:Ef;
      simpl in H; try discriminate.
    apply seeded_traversal in Ef; [|exact E].
    destruct Ef as (Hco & _ & Hhd & _).
    destruct (1 <? length r); inversion H; subst; eauto.
  - rewrite seed_step_skip in H by exact E. inversion H; subst.
    auto using cleared_only_refl.
  - unfold seed_step, getitem in H. rewrite E in H. discriminate.
Qed.

Lemma seed_step_in_range (flags : list bool) (patches : list (list nat))
  (i : nat) :
  in_range bfaces centrs flags -> i < length flags ->
  exists st, seed_step bfaces centrs (flags, patches) i = Done st.
Proof.
  intros Hwf Hi.
  destruct (seed_step bfaces centrs (flags, patches) i) as [st|e|] eqn:E.
  - eauto.
  - exfalso. destruct (nth_error flags i) as [[|]|] eqn:En.
    + rewrite seed_step_seed in E by exact En.
      destruct (flood bfaces centrs (traversal_fuel (setitem flags i false))
                  [i] (setitem flags i false) []) as [[f r]|e'|] eqn:Ef;
        simpl in E; try discriminate.
      * destruct (1 <? length r); discriminate.
      * revert Ef. apply flood_in_range.
        -- unfold in_range in *. rewrite length_setitem. exact Hwf.
        -- rewrite length_setitem. intros a [<-|[]]. exact Hi.
    + rewrite seed_step_skip in E by exact En. discriminate.
    + apply nth_error_None in En. lia.
  - exfalso. exact (seed_step_no_timeout bfaces centrs _ _ E).
Qed.

Lemma seed_loop_in_range (idxs : list nat) :
  forall (flags : list bool) (patches : list (list nat)),
    in_range bfaces centrs flags ->
    (forall i, In i idxs -> i < length flags) ->
    exists st, foldM (seed_step bfaces centrs) idxs (flags, patches) = Done st.
Proof.
  induction idxs as [|i rest IH]; intros flags patches Hwf Hidx.
  - eexists. reflexivity.
  - rewrite foldM_cons.
    destruct (seed_step_in_range patches Hwf (Hidx i (or_introl eq_refl)))
      as [[f1 p1] E].
    rewrite E. cbn [bind].
    apply seed_step_flags in E. destruct E as [[Hlen _] _].
    apply IH.
    + unfold in_range in *. rewrite Hlen. exact Hwf.
    + rewrite Hlen. intros j Hj. apply Hidx. now right.
Qed.

Lemma segment_from_in_range (flags : list bool) :
  in_range bfaces centrs flags ->
  exists st, segment_from bfaces centrs flags = Done st.
Proof.
  intro Hwf. unfold segment_from. apply seed_loop_in_range; [exact Hwf|].
  intros i Hi. apply in_seq in Hi. lia.
Qed.

(** ** Seeds come in ascending order *)

Lemma sorted_snoc (l : list nat) (i : nat) :
  StronglySorted lt l -> (forall s, In s l -> s < i) ->
  StronglySorted lt (l ++ [i]).
Proof.
  induction l as [|a l IH]; intros Hs Hlt; simpl.
  - constructor; constructor.
  - inversion Hs as [|? ? Hs' Ha]; subst. constructor.
    + apply IH; auto. intros s Hin. apply Hlt. now right.
    + apply Forall_app. split; auto. constructor; [|constructor].
      apply Hlt. now left.
Qed.

Lemma sorted_seq (n : nat) : forall a, StronglySorted lt (seq a n).
Proof.
  induction n as [|n IH]; intro a; simpl; constructor; auto.
  apply Forall_forall. intros x Hx. apply in_seq in Hx. lia.
Qed.

Lemma seed_loop_sorted (idxs : list nat) :
  forall flags patches flags' patches',
    StronglySorted lt idxs ->
    StronglySorted lt (seeds patches) ->
    (forall s i, In s (seeds patches) -> In i idxs -> s < i) ->
    foldM (seed_step bfaces centrs) idxs (flags, patches)
    = Done (flags', patches') ->
    StronglySorted lt (seeds patches').
Proof.
  induction idxs as [|i rest IH];
    intros flags patches flags' patches' Hidx Hs Hlt H.
  - inversion H; subst. exact Hs.
  - rewrite foldM_cons in H.
    destruct (seed_step bfaces centrs (flags, patches) i)
      as [[f1 p1]| |] eqn:E; simpl in H; try discriminate.
    inversion Hidx as [|? ? Hrest Hi]; subst.
    apply seed_step_flags in E. destruct E as [_ [->|(r & -> & Hhd)]].
    + eapply IH; eauto. intros s j Hsin Hj. apply Hlt; auto. now right.
    + assert (Hseeds : seeds (patches ++ [r]) = seeds patches ++ [i]).
      { unfold seeds. rewrite map_app. simpl.
        destruct r; inversion Hhd; reflexivity. }
      eapply IH; [exact Hrest| | |exact H]; rewrite Hseeds.
      * apply sorted_snoc; auto. intros s Hsin. apply Hlt; auto. now left.
      * intros s j Hsin Hj. apply in_app_or in Hsin.
        destruct Hsin as [Hsin|[<-|[]]].
        -- apply Hlt; auto. now right.
        -- rewrite Forall_forall in Hi. auto.
Qed.

Lemma segment_from_sorted (flags flags' : list bool)
  (patches : list (list nat)) :
  segment_from bfaces centrs flags = Done (flags', patches) ->
  StronglySorted lt (seeds patches).
Proof.
  unfold segment_from. apply seed_loop_sorted.
  - apply sorted_seq.
  - constructor.
  - intros s i [].
Qed.

End InRange.

(** ** Segmentation: the claims *)

Lemma NoDup_app_disjoint {A : Type} (l1 l2 : list A) (a : A) :
  NoDup (l1 ++ l2) -> In a l1 -> ~ In a l2.
Proof.
  induction l1 as [|x l1 IH]; simpl; intros Hnd Hin Hin2; [contradiction|].
  inversion Hnd as [|? ? Hx Hnd']; subst.
  destruct Hin as [->|Hin].
  - apply Hx. apply in_or_app. now right.
  - exact (IH Hnd' Hin Hin2).
Qed.

Lemma concat_disjoint_lt {A : Type} (L : list (list A)) :
  forall (a b : nat) (p q : list A) (x : A),
    NoDup (concat L) -> a < b ->
    nth_error L a = Some p -> nth_error L b = Some q ->
    In x p -> ~ In x q.
Proof.
  induction L as [|l L IH]; intros a b p q x Hnd Hab Hp Hq Hxp Hxq.
  - destruct a; discriminate.
  - simpl in Hnd. destruct b as [|b]; [lia|]. simpl in Hq.
    destruct a as [|a]; simpl in Hp.
    + inversion Hp; subst l.
      apply (NoDup_app_disjoint _ _ x Hnd Hxp).
      apply in_concat. exists q. split; [|exact Hxq].
      eapply nth_error_In; eassumption.
    + apply NoDup_app_remove_l in Hnd.
      apply (IH a b p q x); auto. lia.
Qed.

Lemma concat_disjoint {A : Type} (L : list (list A)) (a b : nat)
  (p q : list A) (x : A) :
  NoDup (concat L) -> a <> b ->
  nth_error L a = Some p -> nth_error L b = Some q ->
  In x p -> ~ In x q.
Proof.
  intros Hnd Hab Hp Hq Hxp Hxq.
  destruct (Nat.lt_ge_cases a b) as [Hlt|Hge].
  - exact (@concat_disjoint_lt A L a b p q x Hnd Hlt Hp Hq Hxp Hxq).
  - assert (Hlt : b < a) by lia.
    exact (@concat_disjoint_lt A L b a q p x Hnd Hlt Hq Hp Hxq Hxp).
Qed.

(** C6. Every patch recorded by the outer loop has at least two faces,
    for every mesh, every centroid snapshot and every selection. *)
Theorem no_singleton_patch (bfaces : Mesh) (centrs : list vec)
  (flags flags' : list bool) (patches : list (list nat)) :
  segment_from bfaces centrs flags = Done (flags', patches) ->
  Forall (fun p => 2 <= length p) patches.
Proof.
  intro H. apply segment_from_segmented in H. exact (seg_size H).
Qed.

(** The lid is traversed alone and dropped; the pocket is recorded. *)
Lemma no_singleton_patch_witness :
  segment_from pocket_and_lid (get_vecs pocket_and_lid center)
    (get_scalars pocket_and_lid)
  = Done ([false; false; false; false], [[0; 2; 1]])
  /\ Forall (fun p => 2 <= length p) [[0; 2; 1]].
Proof.
  split; [reflexivity|].
  apply (@no_singleton_patch pocket_and_lid (get_vecs pocket_and_lid center)
           (get_scalars pocket_and_lid) [false; false; false; false]).
  reflexivity.
Defined.

(** C7. The patches recorded by one pass are pairwise disjoint, and every
    face of every patch was flagged (selected) when the pass started. *)
Theorem patches_disjoint_eligible (bfaces : Mesh) (centrs : list vec)
  (flags flags' : list bool) (patches : list (list nat)) :
  segment_from bfaces centrs flags = Done (flags', patches) ->
  (forall a b p q i,
      a <> b -> nth_error patches a = Some p -> nth_error patches b = Some q ->
      In i p -> ~ In i q)
  /\ (forall p i, In p patches -> In i p -> nth_error flags i = Some true).
Proof.
  intro H. apply segment_from_segmented in H. split.
  - intros a b p q i Hab Hp Hq.
    exact (@concat_disjoint nat patches a b p q i (seg_nodup H) Hab Hp Hq).
  - intros p i Hp Hi. apply (seg_eligible H). apply in_concat. eauto.
Qed.

Lemma patches_disjoint_eligible_witness :
  segment_from two_pockets (get_vecs two_pockets center)
    (get_scalars two_pockets)
  = Done ([false; false; false; false; false; false],
          [[0; 2; 1]; [3; 5; 4]])
  /\ (forall i, In i [0; 2; 1] -> ~ In i [3; 5; 4])
  /\ (forall p i, In p [[0; 2; 1]; [3; 5; 4]] -> In i p ->
        nth_error (get_scalars two_pockets) i = Some true).
Proof.
  split; [reflexivity|].
  assert (Hrun : segment_from two_pockets (get_vecs two_pockets center)
                   (get_scalars two_pockets)
                 = Done ([false; false; false; false; false; false],
                         [[0; 2; 1]; [3; 5; 4]])) by reflexivity.
  destruct (patches_disjoint_eligible _ _ _ Hrun) as [Hdisj Helig].
  split; [|exact Helig].
  intro i. apply (Hdisj 0 1); [discriminate|reflexivity|reflexivity].
Defined.

(** C10. The while loop ends within one unit of fuel per stacked face and
    per face still flagged, so a pass never runs out of the fuel it is
    given.  A pass that completes leaves flags that differ from the initial
    ones only by cleared entries (a flag is never set again), every face of
    every patch has its flag cleared, and no face index occurs twice in the
    patches, within one patch or across two.  A pass raises only when some
    neighbour index lies outside the mesh. *)
Theorem traversal_terminates_no_repeats (bfaces : Mesh) (centrs : list vec)
  (flags : list bool) :
  (forall stack flgs findcs,
      flood bfaces centrs (length stack + count_true flgs) stack flgs findcs
      <> OutOfFuel)
  /\ match segment_from bfaces centrs flags with
     | Done (flags', patches) =>
         NoDup (concat patches)
         /\ cleared_only flags flags'
         /\ Forall (fun i => nth_error flags' i = Some false) (concat patches)
     | Raised _ => ~ in_range bfaces centrs flags
     | OutOfFuel => False
     end.
Proof.
  split.
  - intros stack flgs findcs. apply flood_fuel. lia.
  - destruct (segment_from bfaces centrs flags) as [[flags' patches]|e|] eqn:E.
    + apply segment_from_segmented in E.
      repeat split; try apply E.
      apply Forall_forall. apply (seg_cleared E).
    + intro Hwf. apply (segment_from_in_range) in Hwf.
      destruct Hwf as [st Hst]. congruence.
    + exact (segment_from_no_timeout _ _ _ E).
Qed.

(** ** The concavity test on one neighbour *)

Lemma loops_keep_stack (centrs : list vec) (n c : vec) (loops : list nat) :
  forall flags stack flags' stack' (i2 : nat) (c2 : vec),
    foldM (visit centrs n c) loops (flags, stack) = Done (flags', stack') ->
    nth_error centrs i2 = Some c2 -> concave n c c2 = true ->
    (nth_error flags i2 = Some true /\ In i2 loops) \/ In i2 stack ->
    In i2 stack'.
Proof.
  induction loops as [|j rest IH];
    intros flags stack flags' stack' i2 c2 H Hc2 Hk Hcase.
  - inversion H; subst. destruct Hcase as [[_ []]|Hin]. exact Hin.
  - rewrite foldM_cons in H.
    destruct (visit centrs n c (flags, stack) j) as [[f1 s1]| |] eqn:E;
      simpl in H; try discriminate.
    apply (IH f1 s1 flags' stack' i2 c2 H Hc2 Hk).
    destruct Hcase as [[Hset [->|Hin]]|Hin].
    + right. unfold visit, getitem in E. rewrite Hset in E. cbn [bind] in E.
      rewrite Hc2 in E. cbn [bind] in E. rewrite Hk in E.
      inversion E; subst. now left.
    + apply visit_cases in E.
      destruct E as [[-> ->]|(Hj & _ & -> & ->)]; auto.
      destruct (Nat.eq_dec j i2) as [->|Hne].
      * right. now left.
      * left. split; [|exact Hin]. now rewrite nth_error_setitem_neq.
    + right. apply visit_cases in E.
      destruct E as [[-> ->]|(Hj & _ & -> & ->)]; auto. now right.
Qed.




(** ** Segmentation depends on the input only *)

Lemma dot_veq (a a' b b' : vec) :
  veq a a' -> veq b b' -> (dot a b == dot a' b')%Q.
Proof.
  intros (Hx & Hy & Hz) (Kx & Ky & Kz). unfold dot.
  rewrite Hx, Hy, Hz, Kx, Ky, Kz. reflexivity.
Qed.

Lemma vsub_veq (a a' b b' : vec) :
  veq a a' -> veq b b' -> veq (vsub a b) (vsub a' b').
Proof.
  intros (Hx & Hy & Hz) (Kx & Ky & Kz). unfold veq, vsub, vx, vy, vz in *.
  simpl. rewrite Hx, Hy, Hz, Kx, Ky, Kz. repeat split; reflexivity.
Qed.

Lemma concave_veq (n n' c c' c2 c2' : vec) :
  veq n n' -> veq c c' -> veq c2 c2' ->
  concave n c c2 = concave n' c' c2'.
Proof.
  intros Hn Hc Hc2. unfold concave, Qltb. f_equal.
  rewrite (dot_veq Hn (vsub_veq Hc2 Hc)). reflexivity.
Qed.

Lemma getitem_Forall2 {A B : Type} (R : A -> B -> Prop) (l1 : list A)
  (l2 : list B) (i : nat) :
  Forall2 R l1 l2 ->
  (exists a b, getitem l1 i = Done a /\ getitem l2 i = Done b /\ R a b)
  \/ (getitem l1 i = Raised IndexError /\ getitem l2 i = Raised IndexError).
Proof.
  intro H. revert i. induction H as [|a b l1 l2 Hab H IH]; intros [|i].
  - right. split; reflexivity.
  - right. split; reflexivity.
  - left. exists a, b. repeat split; auto.
  - exact (IH i).
Qed.

Lemma foldM_ext {A S : Type} (body1 body2 : S -> A -> outcome S)
  (l : list A) :
  (forall s x, body1 s x = body2 s x) ->
  forall s, foldM body1 l s = foldM body2 l s.
Proof.
  intro Hext. induction l as [|x rest IH]; intro s; simpl; [reflexivity|].
  rewrite Hext. destruct (body2 s x); simpl; auto.
Qed.

Section Equivalent.

Variables bfaces1 bfaces2 : Mesh.
Variables centrs1 centrs2 : list vec.
Hypothesis Hfaces : Forall2 face_equiv bfaces1 bfaces2.
Hypothesis Hcentrs : Forall2 veq centrs1 centrs2.

Lemma visit_equiv (n n' c c' : vec) (st : list bool * list nat) (i2 : nat) :
  veq n n' -> veq c c' ->
  visit centrs1 n c st i2 = visit centrs2 n' c' st i2.
Proof.
  intros Hn Hc. destruct st as [flags stack]. unfold visit.
  destruct (getitem flags i2) as [[|]| |]; cbn [bind]; try reflexivity.
  destruct (getitem_Forall2 i2 Hcentrs)
    as [(a & b & -> & -> & Hab)|[-> ->]]; cbn [bind]; [|reflexivity].
  rewrite (concave_veq Hn Hc Hab). reflexivity.
Qed.

Lemma flood_equiv (fuel : nat) :
  forall stack flags findcs,
    flood bfaces1 centrs1 fuel stack flags findcs
    = flood bfaces2 centrs2 fuel stack flags findcs.
Proof.
  induction fuel as [|fuel IH]; intros [|fi stack] flags findcs;
    try reflexivity.
  rewrite !flood_cons.
  destruct (getitem_Forall2 fi Hfaces)
    as [(f & g & -> & -> & Hn & Hc & _ & Hr)|[-> ->]]; cbn [bind];
    [|reflexivity].
  destruct (getitem_Forall2 fi Hcentrs)
    as [(c & c' & -> & -> & Hcc)|[-> ->]]; cbn [bind]; [|reflexivity].
  rewrite Hr.
  rewrite (foldM_ext (visit centrs1 (normal f) c) (visit centrs2 (normal g) c')
             (radial g) (fun st i2 => visit_equiv st i2 Hn Hcc)).
  destruct (foldM (visit centrs2 (normal g) c') (radial g) (flags, stack))
    as [[f1 s1]| |]; cbn [bind fst snd]; auto.
Qed.

Lemma seed_step_equiv (st : list bool * list (list nat)) (i : nat) :
  seed_step bfaces1 centrs1 st i = seed_step bfaces2 centrs2 st i.
Proof.
  destruct st as [flags patches]. unfold seed_step.
  destruct (getitem flags i) as [[|]| |]; cbn [bind negb]; try reflexivity.
  rewrite flood_equiv. reflexivity.
Qed.

Lemma segment_from_equiv (flags : list bool) :
  segment_from bfaces1 centrs1 flags = segment_from bfaces2 centrs2 flags.
Proof.
  unfold segment_from. apply foldM_ext. apply seed_step_equiv.
Qed.

End Equivalent.

Lemma mesh_equiv_centers (m1 m2 : Mesh) :
  mesh_equiv m1 m2 ->
  Forall2 veq (get_vecs m1 center) (get_vecs m2 center).
Proof.
  intro H. unfold get_vecs.
  induction H as [|f g m1 m2 Hfg H IH]; simpl; constructor; auto.
  apply Hfg.
Qed.

Lemma mesh_equiv_select (m1 m2 : Mesh) :
  mesh_equiv m1 m2 -> get_scalars m1 = get_scalars m2.
Proof.
  intro H. unfold get_scalars.
  induction H as [|f g m1 m2 Hfg H IH]; simpl; [reflexivity|].
  destruct Hfg as (_ & _ & -> & _). now rewrite IH.
Qed.

Lemma segment_equiv (m1 m2 : Mesh) :
  mesh_equiv m1 m2 -> segment m1 = segment m2.
Proof.
  intro H. unfold segment.
  rewrite (mesh_equiv_select H).
  rewrite (segment_from_equiv H (mesh_equiv_centers H)). reflexivity.
Qed.

Lemma detect_loop_limits (objects : list (nat * Mesh)) :
  forall self, _limits (snd (detect_loop objects self)) = _limits self.
Proof.
  induction objects as [|[data polys] rest IH]; intro self; simpl; auto.
  destruct (find_patches polys); simpl; auto. now rewrite IH.
Qed.

(** C9. Detection is a function of the selection, the adjacency and the
    numbers in the centroids and normals: two meshes that agree on these
    get the same list of patches, with the same faces in the same order.
    Seeds are taken in ascending index order, so the first faces of the
    recorded patches ascend.  The cache is rebuilt from scratch, so running
    detection again on the state it left gives that state again. *)
Theorem segmentation_deterministic (m1 m2 : Mesh)
  (objects : list (nat * Mesh)) (self : CloseSolidHoles) :
  mesh_equiv m1 m2 ->
  segment m1 = segment m2
  /\ (forall patches, segment m1 = Done patches ->
        StronglySorted lt (seeds patches))
  /\ _find_concave_patches objects
       (snd (_find_concave_patches objects self))
     = _find_concave_patches objects self.
Proof.
  intro H. split; [exact (segment_equiv H)|]. split.
  - intros patches Hp. unfold segment in Hp.
    destruct (segment_from m1 (get_vecs m1 center) (get_scalars m1))
      as [[flags' ps]| |] eqn:E; simpl in Hp; try discriminate.
    inversion Hp; subst. exact (segment_from_sorted _ _ _ E).
  - unfold _find_concave_patches at 1 3.
    unfold _find_concave_patches. now rewrite detect_loop_limits.
Qed.

Lemma segmentation_deterministic_witness :
  mesh_equiv pocket pocket_rescaled
  /\ segment pocket = Done [[0; 2; 1]]
  /\ segment pocket_rescaled = Done [[0; 2; 1]].
Proof.
  assert (He : mesh_equiv pocket pocket_rescaled).
  { repeat constructor. }
  split; [exact He|]. split; [reflexivity|].
  rewrite <- (proj1 (segmentation_deterministic [] initial He)).
  reflexivity.
Defined.

(** ** Patch summaries *)

Lemma direc_of_indexes (dirs : list nat) (d : nat) :
  direc_of dirs = Done d <->
  exists k, argmax Nat.ltb (bincount dirs) = Done k
            /\ nth_error dirs k = Some d.
Proof.
  unfold direc_of. split.
  - destruct (argmax Nat.ltb (bincount dirs)) as [k| |]; simpl;
      try discriminate.
    intro H. apply getitem_done in H. eauto.
  - intros (k & -> & Hk). simpl. now apply getitem_done.
Qed.

(** C1, on the code.  On the three-face pocket the votes of the member
    faces are z, x, x: the plurality axis is x, and [np.bincount(dirs)
    .argmax()] finds it (0).  The code then indexes [dirs] with that value
    and takes the vote of the first member face, z: the diameter stored is
    the span along z (1), not along x (2).  With two faces both voting z
    the index 2 is out of range and the summary raises. *)
Theorem dominant_axis_is_indexed_vote :
  segment pocket = Done [[0; 2; 1]]
  /\ dirs_of (get_vecs pocket normal) [0; 2; 1] = Done [2; 0; 0]
  /\ plurality [2; 0; 0] = 0
  /\ argmax Nat.ltb (bincount [2; 0; 0]) = Done 0
  /\ direc_of [2; 0; 0] = Done 2
  /\ (exists s, find_patches pocket = Done [s]
                /\ (diam s == 1)%Q /\ ~ (diam s == 2)%Q)
  /\ plurality [2; 2] = 2
  /\ direc_of [2; 2] = Raised IndexError.
Proof.
  repeat split; try reflexivity.
  eexists. split; [reflexivity|]. split; [reflexivity|discriminate].
Qed.

Lemma mapM_Forall2 {A B : Type} (f : A -> outcome B) (l : list A) :
  forall l', mapM f l = Done l' -> Forall2 (fun x y => f x = Done y) l l'.
Proof.
  induction l as [|x rest IH]; intros l' H; simpl in H.
  - inversion H. constructor.
  - destruct (f x) as [y| |] eqn:E; simpl in H; try discriminate.
    destruct (mapM f rest) as [ys| |]; simpl in H; try discriminate.
    inversion H; subst. constructor; auto.
Qed.

Lemma take_length {A : Type} (a : list A) (idxs : list nat) :
  forall xs, take a idxs = Done xs -> length xs = length idxs.
Proof.
  induction idxs as [|i rest IH]; intros xs H; simpl in H.
  - inversion H. reflexivity.
  - destruct (getitem a i); simpl in H; try discriminate.
    destruct (take a rest) as [ys| |]; simpl in H; try discriminate.
    inversion H; subst. simpl. f_equal. auto.
Qed.

Lemma vsum_scaled_x (k : Q) (pts : list vec) :
  (vx (vsum (map (vscale k) pts)) == k * Qsum (map vx pts))%Q.
Proof.
  induction pts as [|p pts IH]; simpl.
  - unfold vx, Qsum. simpl. ring.
  - unfold vsum in *. simpl. unfold vadd at 1. unfold vx at 1. simpl.
    rewrite IH. unfold vscale, vx, Qsum. simpl. ring.
Qed.

Lemma vsum_scaled_y (k : Q) (pts : list vec) :
  (vy (vsum (map (vscale k) pts)) == k * Qsum (map vy pts))%Q.
Proof.
  induction pts as [|p pts IH]; simpl.
  - unfold vy, Qsum. simpl. ring.
  - unfold vsum in *. simpl. unfold vadd at 1. unfold vy at 1. simpl.
    rewrite IH. unfold vscale, vy, Qsum. simpl. ring.
Qed.

Lemma vsum_scaled_z (k : Q) (pts : list vec) :
  (vz (vsum (map (vscale k) pts)) == k * Qsum (map vz pts))%Q.
Proof.
  induction pts as [|p pts IH]; simpl.
  - unfold vz, Qsum. simpl. ring.
  - unfold vsum in *. simpl. unfold vadd at 1. unfold vz at 1. simpl.
    rewrite IH. unfold vscale, vz, Qsum. simpl. ring.
Qed.

Lemma vsum_coords (pts : list vec) :
  veq (vsum pts) (Qsum (map vx pts), Qsum (map vy pts), Qsum (map vz pts)).
Proof.
  induction pts as [|p pts IH].
  - repeat split; reflexivity.
  - destruct IH as (Hx & Hy & Hz).
    unfold vsum in *. simpl. unfold veq, vadd, vx, vy, vz in *. simpl.
    rewrite Hx, Hy, Hz. unfold Qsum. simpl. repeat split; reflexivity.
Qed.

Lemma mean_weights (l : list Q) (n : Q) :
  (Qsum l / n == (1 / n) * Qsum l)%Q.
Proof. unfold Qdiv. ring. Qed.

Lemma mean_times_count (l : list Q) (n : Q) :
  ~ (n == 0)%Q -> (n * (Qsum l / n) == Qsum l)%Q.
Proof. intro Hn. field. exact Hn. Qed.

Lemma Qlen_nonzero {A : Type} (l : list A) :
  0 < length l -> ~ (Qlen l == 0)%Q.
Proof.
  intros Hl H. unfold Qlen, Qeq in H. simpl in H. lia.
Qed.

Lemma Qlen_map {A B : Type} (f : A -> B) (l : list A) :
  Qlen (map f l) = Qlen l.
Proof. unfold Qlen. now rewrite length_map. Qed.

Lemma center_is_mean (pts : list vec) (bounds c : vec) :
  get_bounds_and_center pts = Done (bounds, c) ->
  c = (Qsum (map vx pts) / Qlen pts, Qsum (map vy pts) / Qlen pts,
       Qsum (map vz pts) / Qlen pts)%Q.
Proof.
  unfold get_bounds_and_center, mean. rewrite !Qlen_map.
  destruct (span (map vx pts)); simpl; try discriminate.
  destruct (span (map vy pts)); simpl; try discriminate.
  destruct (span (map vz pts)); simpl; try discriminate.
  intro H. inversion H. reflexivity.
Qed.

Lemma summarize_centr (polys : Mesh) (centrs normals : list vec)
  (findcs : list nat) (s : PatchSummary) :
  summarize polys centrs normals findcs = Done s ->
  exists pts,
    take centrs findcs = Done pts
    /\ centr s = (Qsum (map vx pts) / Qlen pts, Qsum (map vy pts) / Qlen pts,
                  Qsum (map vz pts) / Qlen pts)%Q.
Proof.
  unfold summarize.
  destruct (take polys findcs); simpl; try discriminate.
  destruct (dirs_of normals findcs) as [dirs| |]; simpl; try discriminate.
  destruct (direc_of dirs) as [direc| |]; simpl; try discriminate.
  destruct (take centrs findcs) as [pts| |]; simpl; try discriminate.
  destruct (get_bounds_and_center pts) as [[bounds c]| |] eqn:E; simpl;
    try discriminate.
  destruct (getitem (coords bounds) direc); simpl; try discriminate.
  intro H. inversion H; subst. simpl.
  exists pts. split; [reflexivity|]. exact (center_is_mean _ E).
Qed.

(** C2.  For every patch that detection summarises, the centroid stored in
    the summary is the sum of the member faces' centroids, each with the
    same weight 1/n, n being the number of member faces (at least 2): n
    times the stored centroid is the sum of the member centroids. *)
Theorem centroid_is_mean (polys : Mesh) (sums : list PatchSummary) :
  find_patches polys = Done sums ->
  exists patches,
    segment polys = Done patches
    /\ Forall2
         (fun findcs s =>
            exists pts,
              take (get_vecs polys center) findcs = Done pts
              /\ length pts = length findcs
              /\ 2 <= length findcs
              /\ veq (centr s) (vsum (map (vscale (1 / Qlen pts)) pts))
              /\ veq (vscale (Qlen pts) (centr s)) (vsum pts))
         patches sums.
Proof.
  unfold find_patches. intro H.
  destruct (segment polys) as [patches| |] eqn:Es; simpl in H;
    try discriminate.
  exists patches. split; [reflexivity|].
  assert (Hsize : Forall (fun p => 2 <= length p) patches).
  { unfold segment in Es.
    destruct (segment_from polys (get_vecs polys center) (get_scalars polys))
      as [[fl ps]| |] eqn:E; simpl in Es; try discriminate.
    inversion Es; subst. apply segment_from_segmented in E.
    exact (seg_size E). }
  apply mapM_Forall2 in H. clear Es.
  induction H as [|findcs s patches sums Hs H IH]; constructor.
  - inversion Hsize as [|? ? Hlen _]; subst.
    apply summarize_centr in Hs. destruct Hs as (pts & Htake & Hc).
    pose proof (take_length _ _ Htake) as Hl.
    exists pts. repeat split; auto.
    + rewrite Hc. unfold vx at 1. simpl.
      rewrite vsum_scaled_x. apply mean_weights.
    + rewrite Hc. unfold vy at 1. simpl.
      rewrite vsum_scaled_y. apply mean_weights.
    + rewrite Hc. unfold vz at 1. simpl.
      rewrite vsum_scaled_z. apply mean_weights.
    + rewrite Hc. destruct (vsum_coords pts) as (Hx & _ & _).
      rewrite Hx. unfold vscale, vx. simpl.
      apply mean_times_count, Qlen_nonzero. lia.
    + rewrite Hc. destruct (vsum_coords pts) as (_ & Hy & _).
      rewrite Hy. unfold vscale, vy. simpl.
      apply mean_times_count, Qlen_nonzero. lia.
    + rewrite Hc. destruct (vsum_coords pts) as (_ & _ & Hz).
      rewrite Hz. unfold vscale, vz. simpl.
      apply mean_times_count, Qlen_nonzero. lia.
  - apply IH. inversion Hsize; auto.
Qed.

Lemma centroid_is_mean_witness :
  find_patches pocket
  = Done [{| vindcs := [0; 3; 6; 7; 1; 2; 4; 5];
             centr := (3 # 3, 0 # 3, 2 # 3)%Q; diam := 1 |}]
  /\ exists patches,
       segment pocket = Done patches
       /\ Forall2
            (fun findcs s =>
               exists pts,
                 take (get_vecs pocket center) findcs = Done pts
                 /\ length pts = length findcs
                 /\ 2 <= length findcs
                 /\ veq (centr s) (vsum (map (vscale (1 / Qlen pts)) pts))
                 /\ veq (vscale (Qlen pts) (centr s)) (vsum pts))
            patches
            [{| vindcs := [0; 3; 6; 7; 1; 2; 4; 5];
                centr := (3 # 3, 0 # 3, 2 # 3)%Q; diam := 1 |}].
Proof.
  split; [reflexivity|].
  apply (@centroid_is_mean pocket). reflexivity.
Defined.

(** ** Limits *)

Lemma py_min_le_snd (value : Q * Q) : (py_min value <= snd value)%Q.
Proof.
  unfold py_min. destruct (Qltb (snd value) (fst value)) eqn:E.
  - apply Qle_refl.
  - apply Qltb_ge in E. exact E.
Qed.

Lemma py_min_le_fst (value : Q * Q) : (py_min value <= fst value)%Q.
Proof.
  unfold py_min. destruct (Qltb (snd value) (fst value)) eqn:E.
  - apply Qltb_lt in E. apply Qlt_le_weak. exact E.
  - apply Qle_refl.
Qed.

Lemma limits_ordered_step (self : CloseSolidHoles) (value : Q * Q) :
  (fst (_limits (_set_limits self value))
   <= snd (_limits (_set_limits self value)))%Q.
Proof. simpl. apply py_min_le_snd. Qed.

Lemma limits_ordered_fold (values : list (Q * Q)) :
  forall self : CloseSolidHoles,
    (fst (_limits self) <= snd (_limits self))%Q ->
    (fst (_limits (fold_left _set_limits values self))
     <= snd (_limits (fold_left _set_limits values self)))%Q.
Proof.
  induction values as [|v values IH]; intros self Hself; simpl.
  - exact Hself.
  - apply IH. apply limits_ordered_step.
Qed.

(** C5. After any sequence of writes through [_set_limits], starting from
    the initial pair (0, 1), the stored pair has min <= max.  Each write
    stores the given max unchanged and stores as min the given min, lowered
    to the given max when it exceeds it. *)
Theorem limits_clamp_invariant (values : list (Q * Q)) :
  (fst (_limits (fold_left _set_limits values initial))
   <= snd (_limits (fold_left _set_limits values initial)))%Q
  /\ (forall (self : CloseSolidHoles) (value : Q * Q),
         snd (_limits (_set_limits self value)) = snd value
         /\ ((fst value <= snd value)%Q ->
             fst (_limits (_set_limits self value)) = fst value)
         /\ ((snd value < fst value)%Q ->
             fst (_limits (_set_limits self value)) = snd value)).
Proof.
  split.
  - apply limits_ordered_fold. simpl. discriminate.
  - intros self value. simpl. split; [reflexivity|]. unfold py_min. split; intro H.
    + apply Qltb_ge in H. rewrite H. reflexivity.
    + apply Qltb_lt in H. rewrite H. reflexivity.
Qed.

Lemma limits_clamp_invariant_witness :
  (fst (_limits (fold_left _set_limits
                   [(3, 2)%Q; (1, 4)%Q; (7, 5)%Q] initial))
   <= snd (_limits (fold_left _set_limits
                      [(3, 2)%Q; (1, 4)%Q; (7, 5)%Q] initial)))%Q
  /\ _limits (_set_limits initial (3, 2)%Q) = (2, 2)%Q
  /\ _limits (_set_limits initial (1, 4)%Q) = (1, 4)%Q.
Proof.
  split; [apply (proj1 (limits_clamp_invariant
                          [(3, 2)%Q; (1, 4)%Q; (7, 5)%Q]))|].
  split.
  - destruct (proj2 (limits_clamp_invariant []) initial (3, 2)%Q)
      as (Hmax & _ & Hmin).
    rewrite (surjective_pairing (_limits (_set_limits initial (3, 2)%Q))).
    rewrite Hmax, (Hmin eq_refl). reflexivity.
  - destruct (proj2 (limits_clamp_invariant []) initial (1, 4)%Q)
      as (Hmax & Hmin & _).
    rewrite (surjective_pairing (_limits (_set_limits initial (1, 4)%Q))).
    rewrite Hmax, Hmin; [reflexivity|discriminate].
Defined.

(** ** Hole closer *)

Lemma in_limits_iff (limits : Q * Q) (d : Q) :
  in_limits limits d = true <-> (fst limits < d /\ d < snd limits)%Q.
Proof.
  unfold in_limits. rewrite andb_true_iff, !Qltb_lt. reflexivity.
Qed.










Lemma execute_loop_app (h : Host) (limits : Q * Q)
  (pre post : list (nat * list PatchSummary)) (w : list call) :
  execute_loop h limits (pre ++ post) w
  = match execute_loop h limits pre w with
    | (Done _, w1) => execute_loop h limits post w1
    | other => other
    end.
Proof.
  revert w. induction pre as [|entry pre IH]; intro w; simpl; [reflexivity|].
  unfold ebind. destruct (execute_mesh h limits entry w) as [[?| |] w1]; auto.
Qed.

(** C4, as the code has it.  [execute] has no handler: when the body of the
    loop raises on one mesh, after the meshes before it completed, the
    exception leaves [execute] at once.  The outcome and the calls made are
    those up to the failure, whatever meshes follow in the batch: none of
    them is reached. *)
Theorem execute_aborts_at_failure (h : Host) (self : CloseSolidHoles)
  (pre post : list (nat * list PatchSummary))
  (entry : nat * list PatchSummary) (e : exn) (w w1 w2 : list call) :
  _meshes self = pre ++ entry :: post ->
  execute_loop h (_limits self) pre w = (Done tt, w1) ->
  execute_mesh h (_limits self) entry w1 = (Raised e, w2) ->
  execute h self w = (Raised e, w2).
Proof.
  intros Hm Hpre Hfail. unfold execute. rewrite Hm, execute_loop_app, Hpre.
  simpl. unfold ebind. rewrite Hfail. reflexivity.
Qed.

Lemma execute_aborts_at_failure_witness :
  execute picky_host
    {| _limits := (0, 1)%Q;
       _meshes := [(1, [sized (1 # 2)]); (0, [sized (1 # 2)]);
                   (2, [sized (1 # 2)])] |} []
  = (Raised RuntimeError,
     [FromEditMesh 1; PointMerge 1 [0; 1; 2] (0, 0, 0)%Q;
      DissolveVerts 1 [0]; UpdateEditMesh 1;
      FromEditMesh 0; PointMerge 0 [0; 1; 2] (0, 0, 0)%Q]).
Proof.
  apply (@execute_aborts_at_failure picky_host
           {| _limits := (0, 1)%Q;
              _meshes := [(1, [sized (1 # 2)]); (0, [sized (1 # 2)]);
                          (2, [sized (1 # 2)])] |}
           [(1, [sized (1 # 2)])] [(2, [sized (1 # 2)])]
           (0, [sized (1 # 2)]) RuntimeError []
           [FromEditMesh 1; PointMerge 1 [0; 1; 2] (0, 0, 0)%Q;
            DissolveVerts 1 [0]; UpdateEditMesh 1]
           [FromEditMesh 1; PointMerge 1 [0; 1; 2] (0, 0, 0)%Q;
            DissolveVerts 1 [0]; UpdateEditMesh 1;
            FromEditMesh 0; PointMerge 0 [0; 1; 2] (0, 0, 0)%Q]);
    reflexivity.
Defined.

(** C4, as the claim states it, fails.  With a host whose merge raises on
    mesh 0, the batch of meshes 0 and 1 ends with that exception after the
    failed call: mesh 1 is never opened nor committed, although on its own
    it is processed without error. *)
Lemma batch_not_isolated :
  execute picky_host
    {| _limits := (0, 1)%Q;
       _meshes := [(0, [sized (1 # 2)]); (1, [sized (1 # 2)])] |} []
  = (Raised RuntimeError,
     [FromEditMesh 0; PointMerge 0 [0; 1; 2] (0, 0, 0)%Q])
  /\ execute picky_host
       {| _limits := (0, 1)%Q; _meshes := [(1, [sized (1 # 2)])] |} []
     = (Done tt,
        [FromEditMesh 1; PointMerge 1 [0; 1; 2] (0, 0, 0)%Q;
         DissolveVerts 1 [0]; UpdateEditMesh 1])
  /\ ~ (forall (h : Host) (self : CloseSolidHoles) (w : list call)
               (entry : nat * list PatchSummary),
           In entry (_meshes self) ->
           In (UpdateEditMesh (fst entry)) (snd (execute h self w))).
Proof.
  split; [reflexivity|]. split; [reflexivity|].
  intro H.
  specialize (H picky_host
                {| _limits := (0, 1)%Q;
                   _meshes := [(0, [sized (1 # 2)]); (1, [sized (1 # 2)])] |}
                [] (1, [sized (1 # 2)])).
  simpl in H. specialize (H (or_intror (or_introl eq_refl))).
  vm_compute in H.
  repeat (destruct H as [H|H]; [discriminate H|]). exact H.
Qed.

(** * Further properties of the segmenter *)

Lemma foldM_invariant {A S : Type} (body : S -> A -> outcome S)
  (I : S -> Prop) (l : list A) :
  (forall s x s', In x l -> I s -> body s x = Done s' -> I s') ->
  forall s s', I s -> foldM body l s = Done s' -> I s'.
Proof.
  induction l as [|x rest IH]; intros Hstep s s' Hs H.
  - inversion H; subst. exact Hs.
  - rewrite foldM_cons in H.
    destruct (body s x) as [s1| |] eqn:E; simpl in H; try discriminate.
    apply (IH (fun s0 y s0' Hy => Hstep s0 y s0' (or_intror Hy)) s1 s'); auto.
    apply (Hstep s x s1); auto. now left.
Qed.

Section Handled.

Variable bfaces : Mesh.
Variable centrs : list vec.

Lemma seed_step_clears (flags : list bool) (patches : list (list nat))
  (i : nat) (flags' : list bool) (patches' : list (list nat)) :
  seed_step bfaces centrs (flags, patches) i = Done (flags', patches') ->
  nth_error flags' i = Some false.
Proof.
  intro H. destruct (nth_error flags i) as [[|]|] eqn:E.
  - rewrite seed_step_seed in H by exact E.
    destruct (flood bfaces centrs (traversal_fuel (setitem flags i false)) [i]
                (setitem flags i false) []) as [[f r]| |] eqn:Ef;
      simpl in H; try discriminate.
    apply flood_spec in Ef.
    + destruct Ef as (Hco & _).
      assert (Hf : nth_error f i = Some false).
      { apply (cleared_only_false i Hco). apply nth_error_setitem_eq.
        apply nth_error_Some. congruence. }
      destruct (1 <? length r); inversion H; subst; exact Hf.
    + simpl. constructor; [intros []|constructor].
    + intros a [<-|[]]. apply nth_error_setitem_eq.
      apply nth_error_Some. congruence.
  - rewrite seed_step_skip in H by exact E. inversion H; subst. exact E.
  - unfold seed_step, getitem in H. rewrite E in H. discriminate.
Qed.

Lemma seed_loop_clears (idxs : list nat) :
  forall flags patches flags' patches',
    foldM (seed_step bfaces centrs) idxs (flags, patches)
    = Done (flags', patches') ->
    cleared_only flags flags'
    /\ forall i, In i idxs -> nth_error flags' i = Some false.
Proof.
  induction idxs as [|i rest IH]; intros flags patches flags' patches' H.
  - inversion H; subst. split; [apply cleared_only_refl|intros i []].
  - rewrite foldM_cons in H.
    destruct (seed_step bfaces centrs (flags, patches) i)
      as [[f1 p1]| |] eqn:E; simpl in H; try discriminate.
    pose proof (seed_step_clears _ _ _ E) as Hi.
    apply seed_step_flags in E. destruct E as [Hco1 _].
    apply IH in H. destruct H as [Hco2 Hrest].
    split; [eapply cleared_only_trans; eassumption|].
    intros j [<-|Hj]; auto.
    apply (cleared_only_false i Hco2 Hi).
Qed.

(** X1. When the outer loop completes, no flag is left set: every face
    that was eligible has been taken by a traversal, recorded or not, and
    the flag array keeps its length. *)
Theorem pass_clears_every_flag (flags flags' : list bool)
  (patches : list (list nat)) :
  segment_from bfaces centrs flags = Done (flags', patches) ->
  length flags' = length flags
  /\ Forall (fun b => b = false) flags'.
Proof.
  unfold segment_from. intro H. apply seed_loop_clears in H.
  destruct H as [[Hlen Hco] Hall]. split; [exact Hlen|].
  apply Forall_forall. intros b Hb.
  apply In_nth_error in Hb. destruct Hb as [i Hi].
  assert (Hlt : i < length flags').
  { apply nth_error_Some. congruence. }
  rewrite Hall in Hi.
  - congruence.
  - apply in_seq. lia.
Qed.

End Handled.

Lemma pass_clears_every_flag_witness :
  segment_from pocket_and_lid (get_vecs pocket_and_lid center)
    (get_scalars pocket_and_lid)
  = Done ([false; false; false; false], [[0; 2; 1]])
  /\ Forall (fun b => b = false) [false; false; false; false].
Proof.
  split; [reflexivity|].
  apply (@pass_clears_every_flag pocket_and_lid
           (get_vecs pocket_and_lid center) (get_scalars pocket_and_lid)
           [false; false; false; false] [[0; 2; 1]]).
  reflexivity.
Defined.

(** ** Patches are grown along concave edges *)

Section Grown.

Variable bfaces : Mesh.
Variable centrs : list vec.

Lemma loops_pushed_concave (n c : vec) (loops : list nat) :
  forall flags stack flags' stack',
    foldM (visit centrs n c) loops (flags, stack) = Done (flags', stack') ->
    exists new,
      stack' = new ++ stack
      /\ forall x, In x new ->
           In x loops
           /\ exists c2, nth_error centrs x = Some c2
                         /\ concave n c c2 = true.
Proof.
  induction loops as [|i2 rest IH]; intros flags stack flags' stack' H.
  - inversion H; subst. exists []. split; [reflexivity|intros x []].
  - rewrite foldM_cons in H.
    destruct (visit centrs n c (flags, stack) i2) as [[f1 s1]| |] eqn:E;
      simpl in H; try discriminate.
    apply IH in H. destruct H as (new & -> & Hnew).
    apply visit_cases in E.
    destruct E as [[-> ->]|(_ & Hc2 & -> & ->)].
    + exists new. split; [reflexivity|].
      intros x Hx. destruct (Hnew x Hx) as [Hin Hk]. split; [now right|exact Hk].
    + exists (new ++ [i2]). split; [now rewrite <- app_assoc|].
      intros x Hx. apply in_app_or in Hx. destruct Hx as [Hx|[<-|[]]].
      * destruct (Hnew x Hx) as [Hin Hk]. split; [now right|exact Hk].
      * split; [now left|exact Hc2].
Qed.

Lemma rooted_pop (seed fi : nat) (f : Face) (c : vec)
  (findcs stack new : list nat) :
  nth_error bfaces fi = Some f ->
  nth_error centrs fi = Some c ->
  (forall x, In x new ->
     In x (radial f)
     /\ exists c2, nth_error centrs x = Some c2
                   /\ concave (normal f) c c2 = true) ->
  rooted bfaces centrs seed findcs (fi :: stack) ->
  rooted bfaces centrs seed (findcs ++ [fi]) (new ++ stack).
Proof.
  intros Hf Hc Hnew [Hcol Hst]. constructor.
  - intros k x Hk.
    destruct (Nat.lt_ge_cases k (length findcs)) as [Hlt|Hge].
    + rewrite nth_error_app1 in Hk by exact Hlt.
      destruct (Hcol k x Hk) as [->|(j & y & Hj & Hy & He)]; [now left|].
      right. exists j, y. repeat split; auto.
      rewrite nth_error_app1 by lia. exact Hy.
    + rewrite nth_error_app2 in Hk by exact Hge.
      destruct (k - length findcs) as [|d] eqn:Ed; simpl in Hk;
        [|destruct d; discriminate].
      inversion Hk; subst x.
      destruct (Hst fi (or_introl eq_refl)) as [->|(y & Hy & He)];
        [now left|].
      right. apply In_nth_error in Hy. destruct Hy as [j Hj].
      assert (Hjl : j < length findcs) by (apply nth_error_Some; congruence).
      exists j, y. repeat split; auto; [lia|].
      rewrite nth_error_app1 by exact Hjl. exact Hj.
  - intros x Hx. apply in_app_or in Hx. destruct Hx as [Hx|Hx].
    + right. exists fi. split; [apply in_or_app; right; now left|].
      destruct (Hnew x Hx) as [Hin (c2 & Hc2 & Hk)].
      exists f, c, c2. repeat split; auto.
    + destruct (Hst x (or_intror Hx)) as [->|(y & Hy & He)]; [now left|].
      right. exists y. split; [apply in_or_app; now left|exact He].
Qed.

Lemma flood_rooted (seed : nat) (fuel : nat) :
  forall stack flags findcs flags' r,
    flood bfaces centrs fuel stack flags findcs = Done (flags', r) ->
    rooted bfaces centrs seed findcs stack ->
    rooted bfaces centrs seed r [].
Proof.
  induction fuel as [|fuel IH]; intros [|fi stack] flags findcs flags' r H Hr.
  1, 3: rewrite flood_nil in H; inversion H; subst; exact Hr.
  - discriminate.
  - rewrite flood_cons in H.
    destruct (getitem bfaces fi) as [f| |] eqn:Ef; simpl in H;
      try discriminate.
    destruct (getitem centrs fi) as [c| |] eqn:Ec; simpl in H;
      try discriminate.
    destruct (foldM (visit centrs (normal f) c) (radial f) (flags, stack))
      as [[f1 s1]| |] eqn:El; simpl in H; try discriminate.
    apply loops_pushed_concave in El. destruct El as (new & -> & Hnew).
    apply getitem_done in Ef. apply getitem_done in Ec.
    apply IH in H; [exact H|].
    exact (rooted_pop new Ef Ec Hnew Hr).
Qed.

Lemma seeded_traversal_grown (flags : list bool) (i : nat)
  (flags' : list bool) (findcs : list nat) :
  nth_error flags i = Some true ->
  flood bfaces centrs (traversal_fuel (setitem flags i false)) [i]
    (setitem flags i false) [] = Done (flags', findcs) ->
  grown_from_seed bfaces centrs findcs.
Proof.
  intros Hi Hf.
  pose proof (seeded_traversal bfaces centrs flags i Hi Hf)
    as (_ & Hnd & Hhd & _).
  apply flood_rooted with (seed := i) in Hf.
  - destruct Hf as [Hcol _]. intros k x Hx.
    destruct (Hcol (S k) x Hx) as [->|(j & y & Hj & Hy & He)].
    + exfalso. destruct findcs as [|a t]; [discriminate|].
      simpl in Hhd. inversion Hhd; subst a. simpl in Hx.
      inversion Hnd as [|? ? Hnotin _]; subst.
      apply Hnotin. eapply nth_error_In; eassumption.
    + exists j, y. repeat split; auto. lia.
  - constructor.
    + intros k x Hx. destruct k; discriminate.
    + intros x [<-|[]]. now left.
Qed.

Lemma seed_step_grown (flags : list bool) (patches : list (list nat))
  (i : nat) (flags' : list bool) (patches' : list (list nat)) :
  Forall (grown_from_seed bfaces centrs) patches ->
  seed_step bfaces centrs (flags, patches) i = Done (flags', patches') ->
  Forall (grown_from_seed bfaces centrs) patches'.
Proof.
  intros Hall H. destruct (nth_error flags i) as [[|]|] eqn:E.
  - rewrite seed_step_seed in H by exact E.
    destruct (flood bfaces centrs (traversal_fuel (setitem flags i false)) [i]
                (setitem flags i false) []) as [[f r]| |] eqn:Ef;
      simpl in H; try discriminate.
    apply seeded_traversal_grown in Ef; [|exact E].
    destruct (1 <? length r); inversion H; subst; auto.
    apply Forall_app. split; auto.
  - rewrite seed_step_skip in H by exact E. inversion H; subst. exact Hall.
  - unfold seed_step, getitem in H. rewrite E in H. discriminate.
Qed.

(** The invariant of the outer loop behind connectedness. *)
Lemma segment_from_grown (flags flags' : list bool)
  (patches : list (list nat)) :
  segment_from bfaces centrs flags = Done (flags', patches) ->
  Forall (grown_from_seed bfaces centrs) patches.
Proof.
  unfold segment_from. intro H.
  change patches with (snd (flags', patches)).
  eapply foldM_invariant
    with (I := fun st => Forall (grown_from_seed bfaces centrs) (snd st));
    [| |exact H].
  - intros [fl ps] x [fl' ps'] _ Hs Hb. cbn [snd] in *.
    eapply seed_step_grown; eassumption.
  - constructor.
Qed.

(** X2. Every recorded patch is connected along the test of the flood
    fill: each of its faces but the seed is a radial neighbour of a face
    standing earlier in the patch's list, and the concavity test holds from
    that face to it. *)
Theorem patches_grown_from_seed (flags flags' : list bool)
  (patches : list (list nat)) :
  segment_from bfaces centrs flags = Done (flags', patches) ->
  Forall (grown_from_seed bfaces centrs) patches.
Proof. exact (@segment_from_grown flags flags' patches). Qed.


End Grown.

Lemma patches_grown_from_seed_witness :
  segment_from two_pockets (get_vecs two_pockets center)
    (get_scalars two_pockets)
  = Done ([false; false; false; false; false; false],
          [[0; 2; 1]; [3; 5; 4]])
  /\ Forall (grown_from_seed two_pockets (get_vecs two_pockets center))
       [[0; 2; 1]; [3; 5; 4]].
Proof.
  split; [reflexivity|].
  apply (@patches_grown_from_seed two_pockets (get_vecs two_pockets center)
           (get_scalars two_pockets)
           [false; false; false; false; false; false]).
  reflexivity.
Defined.


(** * Patches are maximal *)

Section Maximal.

Variable bfaces : Mesh.
Variable centrs : list vec.

Lemma loops_done_in_range (n c : vec) (loops : list nat) :
  forall flags stack st,
    foldM (visit centrs n c) loops (flags, stack) = Done st ->
    forall i2, In i2 loops -> i2 < length flags.
Proof.
  induction loops as [|j rest IH]; intros flags stack st H i2 Hin.
  - destruct Hin.
  - rewrite foldM_cons in H.
    destruct (visit centrs n c (flags, stack) j) as [[f1 s1]| |] eqn:E;
      simpl in H; try discriminate.
    assert (Hj : j < length flags).
    { unfold visit, getitem in E.
      destruct (nth_error flags j) eqn:Ej; [|discriminate].
      apply nth_error_Some. congruence. }
    destruct Hin as [<- |Hin]; [exact Hj|].
    assert (Hlen : length f1 = length flags).
    { apply visit_cases in E.
      destruct E as [[-> _]|(_ & _ & -> & _)];
        [reflexivity|apply length_setitem]. }
    rewrite <- Hlen. eapply IH; eassumption.
Qed.

(** A traversal collects every face whose flag it clears, and follows
    every concave edge out of a face it pops whose target is still
    flagged. *)
Lemma flood_closure (fuel : nat) :
  forall stack flags findcs flags' r,
    flood bfaces centrs fuel stack flags findcs = Done (flags', r) ->
    exists t,
      r = findcs ++ t
      /\ incl stack t
      /\ cleared_only flags flags'
      /\ (forall i, nth_error flags i = Some true ->
                    nth_error flags' i = Some false -> In i t)
      /\ (forall y x, In y t -> concave_edge bfaces centrs y x ->
                      In x t \/ nth_error flags x = Some false).
Proof.
  induction fuel as [|fuel IH]; intros [|fi stack] flags findcs flags' r H.
  1, 3: rewrite flood_nil in H; inversion H; subst; exists [];
        rewrite app_nil_r; split; [reflexivity|];
        split; [apply incl_refl|]; split; [apply cleared_only_refl|];
        split; [intros i H1 H2; congruence|intros y x []].
  - discriminate.
  - rewrite flood_cons in H.
    destruct (getitem bfaces fi) as [f| |] eqn:Ef; simpl in H;
      try discriminate.
    destruct (getitem centrs fi) as [c| |] eqn:Ec; simpl in H;
      try discriminate.
    destruct (foldM (visit centrs (normal f) c) (radial f) (flags, stack))
      as [[f1 s1]| |] eqn:El; simpl in H; try discriminate.
    pose proof (loops_done_in_range _ _ _ _ _ El) as Hrange.
    pose proof El as El2.
    apply loops_pushes in El. destruct El as (new & P & _).
    pose proof (pushes_cleared_only P) as Hco1.
    apply IH in H. destruct H as (t & -> & Hincl & Hco2 & Hclr & Hedge).
    rewrite (pushes_stack P) in Hincl.
    apply getitem_done in Ef. apply getitem_done in Ec.
    exists (fi :: t). rewrite <- app_assoc.
    split; [reflexivity|]. split.
    { intros a [<- |Ha]; [now left|right].
      apply Hincl, in_or_app. now right. }
    split; [eapply cleared_only_trans; eassumption|].
    assert (Hnew : forall i, nth_error flags i = Some true ->
                             nth_error f1 i = Some false -> In i t).
    { intros i Hi Hi1.
      destruct (in_dec Nat.eq_dec i new) as [Hin|Hout].
      - apply Hincl, in_or_app. now left.
      - rewrite (pushes_others P i Hout) in Hi1. congruence. }
    split.
    { intros i Hi Hi'. right.
      destruct (nth_error f1 i) as [[|]|] eqn:E1.
      - apply Hclr; auto.
      - apply Hnew; auto.
      - destruct Hco1 as [_ Hco1]. destruct (Hco1 i) as [Eq|[_ Eq]];
          congruence. }
    intros y x [<- |Hy] He.
    + destruct He as (f' & cy & cx & Hf' & Hcy & Hcx & Hin & Hk).
      assert (f' = f) by congruence. subst f'.
      assert (cy = c) by congruence. subst cy.
      pose proof (Hrange x Hin) as Hx.
      destruct (nth_error flags x) as [[|]|] eqn:Ex.
      * left. right. apply Hincl.
        apply (@loops_keep_stack centrs (normal f) c (radial f) flags stack
                 f1 (new ++ stack) x cx);
          auto.
        rewrite <- (pushes_stack P). exact El2.
      * now right.
      * apply nth_error_None in Ex. lia.
    + destruct (Hedge y x Hy He) as [Hx|Hx]; [left; now right|].
      destruct (nth_error flags x) as [[|]|] eqn:Ex.
      * left. right. apply Hnew; auto.
      * now right.
      * destruct Hco1 as [_ Hco1]. destruct (Hco1 x) as [Eq|[Eq _]];
          congruence.
Qed.

Lemma seeded_traversal_closed (flags : list bool) (i : nat)
  (flags' : list bool) (findcs : list nat) :
  nth_error flags i = Some true ->
  flood bfaces centrs (traversal_fuel (setitem flags i false)) [i]
    (setitem flags i false) [] = Done (flags', findcs) ->
  (forall x, nth_error flags x = Some true ->
             nth_error flags' x = Some false -> In x findcs)
  /\ (forall y x, In y findcs -> concave_edge bfaces centrs y x ->
                  In x findcs \/ nth_error flags x = Some false).
Proof.
  intros Hi Hf. apply flood_closure in Hf.
  destruct Hf as (t & Ht & Hincl & _ & Hclr & Hedge). simpl in Ht. subst t.
  assert (Hseed : In i findcs) by (apply Hincl; now left).
  split.
  - intros x Hx Hx'. destruct (Nat.eq_dec i x) as [<- |Hne]; [exact Hseed|].
    apply Hclr; auto. now rewrite nth_error_setitem_neq.
  - intros y x Hy He. destruct (Hedge y x Hy He) as [Hx|Hx]; [now left|].
    destruct (Nat.eq_dec i x) as [<- |Hne]; [now left|].
    right. now rewrite nth_error_setitem_neq in Hx.
Qed.

Lemma seed_step_closed (flags0 flags : list bool)
  (patches : list (list nat)) (i : nat) (flags' : list bool)
  (patches' : list (list nat)) :
  taken_so_far flags0 flags patches i ->
  closed_under_edges bfaces centrs flags0 patches ->
  seed_step bfaces centrs (flags, patches) i = Done (flags', patches') ->
  taken_so_far flags0 flags' patches' (S i)
  /\ closed_under_edges bfaces centrs flags0 patches'.
Proof.
  intros Htaken Hclosed H.
  destruct (nth_error flags i) as [[|]|] eqn:E.
  - rewrite seed_step_seed in H by exact E.
    destruct (flood bfaces centrs (traversal_fuel (setitem flags i false)) [i]
                (setitem flags i false) []) as [[f r]| |] eqn:Ef;
      simpl in H; try discriminate.
    pose proof (seeded_traversal bfaces centrs flags i E Ef)
      as (Hco & Hnd & Hhd & _).
    destruct (seeded_traversal_closed flags i E Ef) as [Hclr Hedge].
    assert (Hnow : forall x, nth_error f x = Some false ->
                     nth_error flags0 x = Some false
                     \/ In x (concat patches) \/ x < i \/ In x r).
    { intros x Hx. destruct (nth_error flags x) as [[|]|] eqn:Ex.
      - right. right. right. apply Hclr; auto.
      - destruct (Htaken x Ex) as [H0|[H1|H2]];
          [now left|right; now left|right; right; now left].
      - destruct Hco as [_ Hco]. destruct (Hco x) as [Eq|[Eq _]];
          congruence. }
    destruct (1 <? length r) eqn:Elen; inversion H; subst; clear H.
    + split.
      * intros x Hx. rewrite concat_app. simpl. rewrite app_nil_r.
        destruct (Hnow x Hx) as [H0|[H1|[H2|H3]]].
        -- now left.
        -- right. left. apply in_or_app. now left.
        -- right. right. lia.
        -- right. left. apply in_or_app. now right.
      * intros before p after y x Hsplit Hy He.
        destruct after as [|a after'].
        -- apply app_inj_tail in Hsplit. destruct Hsplit as [<- <-].
           destruct (Hedge y x Hy He) as [Hx|Hx]; [now left|].
           destruct (Htaken x Hx) as [H0|[H1|H2]].
           ++ right. now left.
           ++ right. right. now left.
           ++ right. right. right.
              destruct r as [|s r']; [discriminate|].
              simpl in Hhd. inversion Hhd; subst s. exact H2.
        -- assert (Hsplit' : patches = before ++ p :: removelast (a :: after')).
           { apply (f_equal (@removelast _)) in Hsplit.
             rewrite removelast_last in Hsplit. rewrite Hsplit.
             rewrite removelast_app by discriminate. reflexivity. }
           exact (Hclosed before p _ y x Hsplit' Hy He).
    + apply Nat.ltb_ge in Elen. split; [|exact Hclosed].
      intros x Hx. destruct (Hnow x Hx) as [H0|[H1|[H2|Hr]]].
      * now left.
      * right. now left.
      * right. right. lia.
      * right. right.
        destruct r as [|s [|s' r']]; simpl in Elen; try lia;
          [destruct Hr|].
        simpl in Hhd. inversion Hhd; subst s. destruct Hr as [<- |[]]. lia.
  - rewrite seed_step_skip in H by exact E. inversion H; subst.
    split; [|exact Hclosed].
    intros x Hx. destruct (Htaken x Hx) as [H0|[H1|H2]].
    + now left.
    + right. now left.
    + right. right. lia.
  - unfold seed_step, getitem in H. rewrite E in H. discriminate.
Qed.

Lemma seed_loop_closed (flags0 : list bool) (n : nat) :
  forall a flags patches flags' patches',
    taken_so_far flags0 flags patches a ->
    closed_under_edges bfaces centrs flags0 patches ->
    foldM (seed_step bfaces centrs) (seq a n) (flags, patches)
    = Done (flags', patches') ->
    closed_under_edges bfaces centrs flags0 patches'.
Proof.
  induction n as [|n IH]; intros a flags patches flags' patches' Ht Hc H.
  - inversion H; subst. exact Hc.
  - simpl seq in H. rewrite foldM_cons in H.
    destruct (seed_step bfaces centrs (flags, patches) a)
      as [[f1 p1]| |] eqn:E; simpl in H; try discriminate.
    destruct (seed_step_closed Ht Hc E) as [Ht1 Hc1].
    exact (IH (S a) f1 p1 flags' patches' Ht1 Hc1 H).
Qed.

(** X4. Recorded patches are maximal.  Whenever the concavity test holds
    from a face of a recorded patch to one of its radial neighbours, that
    neighbour is in the same patch, unless it was not available when the
    patch was grown: it was not selected, it belongs to a patch recorded
    earlier, or its index is below the patch's seed, so that the outer loop
    had passed it before. *)
Theorem patches_closed_under_edges (flags flags' : list bool)
  (patches : list (list nat)) :
  segment_from bfaces centrs flags = Done (flags', patches) ->
  closed_under_edges bfaces centrs flags patches.
Proof.
  unfold segment_from. apply seed_loop_closed.
  - intros x Hx. now left.
  - intros before p after y x Hsplit. destruct before; discriminate.
Qed.

End Maximal.

Lemma patches_closed_under_edges_witness :
  segment_from two_pockets (get_vecs two_pockets center)
    (get_scalars two_pockets)
  = Done ([false; false; false; false; false; false],
          [[0; 2; 1]; [3; 5; 4]])
  /\ closed_under_edges two_pockets (get_vecs two_pockets center)
       (get_scalars two_pockets) [[0; 2; 1]; [3; 5; 4]].
Proof.
  split; [reflexivity|].
  apply (@patches_closed_under_edges two_pockets
           (get_vecs two_pockets center) (get_scalars two_pockets)
           [false; false; false; false; false; false]).
  reflexivity.
Defined.

(** * The seed of a patch *)

Section Least.

Variable bfaces : Mesh.
Variable centrs : list vec.

Lemma seed_step_least (flags : list bool) (patches : list (list nat))
  (i : nat) (flags' : list bool) (patches' : list (list nat)) :
  (forall x, x < i -> nth_error flags x <> Some true) ->
  Forall (fun p => forall x, In x p -> hd 0 p <= x) patches ->
  seed_step bfaces centrs (flags, patches) i = Done (flags', patches') ->
  (forall x, x < S i -> nth_error flags' x <> Some true)
  /\ Forall (fun p => forall x, In x p -> hd 0 p <= x) patches'.
Proof.
  intros Hlow Hall H.
  pose proof (seed_step_clears _ _ _ _ _ H) as Hi.
  pose proof (seed_step_flags _ _ _ _ _ H) as [Hco _].
  split.
  - intros x Hx Habs.
    destruct (Nat.eq_dec x i) as [->|Hne]; [congruence|].
    apply (Hlow x); [lia|]. exact (cleared_only_true x Hco Habs).
  - destruct (nth_error flags i) as [[|]|] eqn:E.
    + rewrite seed_step_seed in H by exact E.
      destruct (flood bfaces centrs (traversal_fuel (setitem flags i false))
                  [i] (setitem flags i false) []) as [[f r]| |] eqn:Ef;
        simpl in H; try discriminate.
      pose proof (seeded_traversal bfaces centrs flags i E Ef)
        as (_ & _ & Hhd & _ & Hset).
      destruct (1 <? length r); inversion H; subst; auto.
      apply Forall_app. split; [exact Hall|].
      constructor; [|constructor].
      intros x Hx.
      destruct r as [|s r']; [destruct Hx|].
      simpl in Hhd. inversion Hhd; subst s. simpl.
      destruct (Nat.lt_ge_cases x i) as [Hlt|Hge]; [|exact Hge].
      exfalso. exact (Hlow x Hlt (Hset x Hx)).
    + rewrite seed_step_skip in H by exact E. inversion H; subst. exact Hall.
    + unfold seed_step, getitem in H. rewrite E in H. discriminate.
Qed.

Lemma seed_loop_least (n : nat) :
  forall a flags patches flags' patches',
    (forall x, x < a -> nth_error flags x <> Some true) ->
    Forall (fun p => forall x, In x p -> hd 0 p <= x) patches ->
    foldM (seed_step bfaces centrs) (seq a n) (flags, patches)
    = Done (flags', patches') ->
    Forall (fun p => forall x, In x p -> hd 0 p <= x) patches'.
Proof.
  induction n as [|n IH]; intros a flags patches flags' patches' Hl Hp H.
  - inversion H; subst. exact Hp.
  - simpl seq in H. rewrite foldM_cons in H.
    destruct (seed_step bfaces centrs (flags, patches) a)
      as [[f1 p1]| |] eqn:E; simpl in H; try discriminate.
    destruct (seed_step_least _ Hl Hp E) as [Hl1 Hp1].
    exact (IH (S a) f1 p1 flags' patches' Hl1 Hp1 H).
Qed.

(** X5. The face list of every recorded patch starts with the patch's
    face of lowest index: the seed, reached first by the outer loop. *)
Theorem seed_is_least_face (flags flags' : list bool)
  (patches : list (list nat)) :
  segment_from bfaces centrs flags = Done (flags', patches) ->
  Forall (fun p => forall x, In x p -> hd 0 p <= x) patches.
Proof.
  unfold segment_from. apply seed_loop_least.
  - intros x Hx. lia.
  - constructor.
Qed.

End Least.

Lemma seed_is_least_face_witness :
  segment_from two_pockets (get_vecs two_pockets center)
    (get_scalars two_pockets)
  = Done ([false; false; false; false; false; false],
          [[0; 2; 1]; [3; 5; 4]])
  /\ Forall (fun p => forall x, In x p -> hd 0 p <= x)
       [[0; 2; 1]; [3; 5; 4]].
Proof.
  split; [reflexivity|].
  apply (@seed_is_least_face two_pockets (get_vecs two_pockets center)
           (get_scalars two_pockets)
           [false; false; false; false; false; false]).
  reflexivity.
Defined.

(** * Further properties of the summarizer *)

(** The three comparisons of the argmax scan, read back. *)
Lemma facing_axis (n : vec) :
  exists k,
    facing n = Done k
    /\ k < 3
    /\ forall j, j < 3 ->
         (nth j (map Qabs (coords n)) 0 <= nth k (map Qabs (coords n)) 0)%Q
         /\ (j < k ->
             (nth j (map Qabs (coords n)) 0
              < nth k (map Qabs (coords n)) 0)%Q).
Proof.
  unfold facing, coords. simpl.
  destruct (Qltb (Qabs (vx n)) (Qabs (vy n))) eqn:Exy;
    [apply Qltb_lt in Exy|apply Qltb_ge in Exy].
  - destruct (Qltb (Qabs (vy n)) (Qabs (vz n))) eqn:Eyz;
      [apply Qltb_lt in Eyz; exists 2|apply Qltb_ge in Eyz; exists 1];
      (split; [reflexivity|]); (split; [lia|]);
      intros [|[|[|j]]] Hj; try lia; simpl;
      (split;
       [first [apply Qle_refl | assumption
              | apply Qlt_le_weak; assumption
              | apply Qlt_le_weak; eapply Qlt_trans; eassumption]
       |intro Hjk; try lia;
        first [assumption | eapply Qlt_trans; eassumption]]).
  - destruct (Qltb (Qabs (vx n)) (Qabs (vz n))) eqn:Exz;
      [apply Qltb_lt in Exz; exists 2|apply Qltb_ge in Exz; exists 0];
      (split; [reflexivity|]); (split; [lia|]);
      intros [|[|[|j]]] Hj; try lia; simpl;
      (split;
       [first [apply Qle_refl | assumption
              | apply Qlt_le_weak; assumption
              | apply Qlt_le_weak; eapply Qle_lt_trans; eassumption]
       |intro Hjk; try lia;
        first [assumption | eapply Qle_lt_trans; eassumption]]).
Qed.

(** X6. The vote of a face is one of the three axes, no axis has a greater
    magnitude in the normal than the voted one, and every axis before it
    has a strictly smaller one: the first axis of greatest magnitude. *)
Theorem facing_first_greatest (n : vec) :
  exists k,
    facing n = Done k
    /\ k < 3
    /\ forall j, j < 3 ->
         (nth j (map Qabs (coords n)) 0 <= nth k (map Qabs (coords n)) 0)%Q
         /\ (j < k ->
             (nth j (map Qabs (coords n)) 0
              < nth k (map Qabs (coords n)) 0)%Q).
Proof. exact (facing_axis n). Qed.

Lemma count_occ_above_max (dirs : list nat) (k : nat) :
  list_max dirs < k -> count_occ Nat.eq_dec dirs k = 0.
Proof.
  intro H. apply count_occ_not_In. intro Hin.
  assert (Hle : Forall (fun x => x <= list_max dirs) dirs)
    by (apply list_max_le; lia).
  rewrite Forall_forall in Hle. specialize (Hle k Hin). lia.
Qed.

Lemma votes_max_below_3 (dirs : list nat) :
  Forall (fun d => d < 3) dirs -> list_max dirs <= 2.
Proof.
  intro H. apply list_max_le.
  eapply Forall_impl; [|exact H]. simpl. intros a Ha. lia.
Qed.

(** The mode of at most three bins. *)
Lemma mode_is_plurality (dirs : list nat) :
  dirs <> [] ->
  Forall (fun d => d < 3) dirs ->
  argmax Nat.ltb (bincount dirs) = Done (plurality dirs).
Proof.
  intros Hne Hvotes. unfold bincount, plurality.
  destruct dirs as [|d0 rest] eqn:Ed; [congruence|]. rewrite <- Ed in *.
  clear Ed Hne.
  pose proof (votes_max_below_3 Hvotes) as Hmax.
  destruct (list_max dirs) as [|[|[|m]]] eqn:Em; try lia; simpl.
  - rewrite (@count_occ_above_max dirs 1), (@count_occ_above_max dirs 2)
      by lia.
    reflexivity.
  - rewrite (@count_occ_above_max dirs 2) by lia. simpl.
    rewrite andb_true_r.
    destruct (count_occ Nat.eq_dec dirs 0 <? count_occ Nat.eq_dec dirs 1)
      eqn:E01.
    + apply Nat.ltb_lt in E01.
      destruct (count_occ Nat.eq_dec dirs 1 <=? count_occ Nat.eq_dec dirs 0)
        eqn:E10; [apply Nat.leb_le in E10; lia|reflexivity].
    + apply Nat.ltb_ge in E01.
      destruct (count_occ Nat.eq_dec dirs 1 <=? count_occ Nat.eq_dec dirs 0)
        eqn:E10; [reflexivity|apply Nat.leb_gt in E10; lia].
  - destruct (count_occ Nat.eq_dec dirs 0 <? count_occ Nat.eq_dec dirs 1)
      eqn:E01;
    destruct (count_occ Nat.eq_dec dirs 1 <? count_occ Nat.eq_dec dirs 2)
      eqn:E12;
    destruct (count_occ Nat.eq_dec dirs 0 <? count_occ Nat.eq_dec dirs 2)
      eqn:E02;
    destruct (count_occ Nat.eq_dec dirs 1 <=? count_occ Nat.eq_dec dirs 0)
      eqn:E10;
    destruct (count_occ Nat.eq_dec dirs 2 <=? count_occ Nat.eq_dec dirs 0)
      eqn:E20;
    destruct (count_occ Nat.eq_dec dirs 2 <=? count_occ Nat.eq_dec dirs 1)
      eqn:E21;
    simpl; try reflexivity; exfalso;
    repeat match goal with
           | H : (_ <? _) = true |- _ => apply Nat.ltb_lt in H
           | H : (_ <? _) = false |- _ => apply Nat.ltb_ge in H
           | H : (_ <=? _) = true |- _ => apply Nat.leb_le in H
           | H : (_ <=? _) = false |- _ => apply Nat.leb_gt in H
           end; lia.
Qed.

(** X7. For the votes of a non-empty patch, [np.bincount(dirs).argmax()]
    is the axis with the plurality of the votes, the lowest axis on a
    tie. *)
Theorem bincount_argmax_is_plurality (dirs : list nat) :
  dirs <> [] ->
  Forall (fun d => d < 3) dirs ->
  argmax Nat.ltb (bincount dirs) = Done (plurality dirs).
Proof. exact (@mode_is_plurality dirs). Qed.

Lemma bincount_argmax_is_plurality_witness :
  argmax Nat.ltb (bincount [1; 2; 2; 1; 0]) = Done 1
  /\ plurality [1; 2; 2; 1; 0] = 1.
Proof.
  split; [|reflexivity].
  apply (@bincount_argmax_is_plurality [1; 2; 2; 1; 0]).
  - discriminate.
  - repeat constructor.
Defined.

Lemma plurality_below_3 (dirs : list nat) : plurality dirs < 3.
Proof.
  unfold plurality.
  destruct ((count_occ Nat.eq_dec dirs 1 <=? count_occ Nat.eq_dec dirs 0)
            && (count_occ Nat.eq_dec dirs 2 <=? count_occ Nat.eq_dec dirs 0));
    [lia|].
  destruct (count_occ Nat.eq_dec dirs 2 <=? count_occ Nat.eq_dec dirs 1); lia.
Qed.

Lemma votes_pair_cases (a b : nat) :
  a < 3 -> b < 3 ->
  ([a; b] = [2; 2] /\ direc_of [a; b] = Raised IndexError)
  \/ ([a; b] <> [2; 2]
      /\ exists d, direc_of [a; b] = Done d /\ In d [a; b]).
Proof.
  intros Ha Hb.
  destruct a as [|[|[|a]]]; try lia; destruct b as [|[|[|b]]]; try lia;
    try (left; split; reflexivity);
    right; (split; [discriminate|]); eexists; (split; [reflexivity|]);
    simpl; auto.
Qed.

(** The lookup [dirs[mode]], by the number of votes. *)
Lemma direc_of_cases (dirs : list nat) :
  Forall (fun d => d < 3) dirs ->
  2 <= length dirs ->
  (dirs = [2; 2] /\ direc_of dirs = Raised IndexError)
  \/ (dirs <> [2; 2]
      /\ exists d, direc_of dirs = Done d /\ In d dirs /\ d < 3).
Proof.
  intros Hvotes Hlen.
  destruct dirs as [|a [|b [|c rest]]]; simpl in Hlen; try lia.
  - inversion Hvotes as [|? ? Ha Hv']; subst.
    inversion Hv' as [|? ? Hb _]; subst.
    destruct (votes_pair_cases Ha Hb) as [?|(Hne & d & Hd & Hin)]; auto.
    right. split; auto. exists d. repeat split; auto.
    rewrite Forall_forall in Hvotes. auto.
  - right. split; [discriminate|].
    unfold direc_of.
    rewrite mode_is_plurality by (auto; discriminate).
    cbn [bind].
    pose proof (plurality_below_3 (a :: b :: c :: rest)) as Hp.
    destruct (getitem_in_range (a :: b :: c :: rest)
                (i := plurality (a :: b :: c :: rest))) as [d Hd].
    { simpl. lia. }
    exists d. split; [exact Hd|].
    apply getitem_done in Hd. apply nth_error_In in Hd.
    split; [exact Hd|]. rewrite Forall_forall in Hvotes. auto.
Qed.

(** X8. The axis a summary is built on is always the vote of one of the
    member faces.  For a patch of at least two faces the lookup
    [dirs[mode]] raises IndexError in exactly one case: two faces that both
    vote z.  In every other case it returns. *)
Theorem direc_of_raises_iff (dirs : list nat) :
  Forall (fun d => d < 3) dirs ->
  2 <= length dirs ->
  (dirs = [2; 2] /\ direc_of dirs = Raised IndexError)
  \/ (dirs <> [2; 2]
      /\ exists d, direc_of dirs = Done d /\ In d dirs /\ d < 3).
Proof. exact (@direc_of_cases dirs). Qed.

Lemma direc_of_raises_iff_witness :
  ([2; 0; 0] <> [2; 2]
   /\ exists d, direc_of [2; 0; 0] = Done d /\ In d [2; 0; 0] /\ d < 3)
  /\ direc_of [2; 2] = Raised IndexError.
Proof.
  split.
  - destruct (@direc_of_raises_iff [2; 0; 0]) as [[Habs _]|H].
    + repeat constructor.
    + simpl. lia.
    + discriminate Habs.
    + exact H.
  - destruct (@direc_of_raises_iff [2; 2]) as [[_ H]|[Habs _]].
    + repeat constructor.
    + simpl. lia.
    + exact H.
    + exfalso. apply Habs. reflexivity.
Defined.

Lemma take_members {A : Type} (a : list A) (idxs : list nat) :
  forall xs, take a idxs = Done xs ->
    forall x, In x xs <-> exists i, In i idxs /\ nth_error a i = Some x.
Proof.
  induction idxs as [|i rest IH]; intros xs H x; simpl in H.
  - inversion H; subst. split; [intros []|intros (i & [] & _)].
  - destruct (getitem a i) as [y| |] eqn:Ey; simpl in H; try discriminate.
    destruct (take a rest) as [ys| |]; simpl in H; try discriminate.
    inversion H; subst. apply getitem_done in Ey. simpl. split.
    + intros [<-|Hx]; [exists i; auto|].
      apply (IH ys eq_refl) in Hx. destruct Hx as (j & Hj & Hn).
      exists j. auto.
    + intros (j & [<-|Hj] & Hn); [left; congruence|].
      right. apply (IH ys eq_refl). eauto.
Qed.

(** X9. The vertex list of a summary has no repeated index, and holds
    exactly the vertex indices of the patch's member faces. *)
Theorem summary_vertices (polys : Mesh) (centrs normals : list vec)
  (findcs : list nat) (s : PatchSummary) :
  summarize polys centrs normals findcs = Done s ->
  NoDup (vindcs s)
  /\ forall v, In v (vindcs s) <->
       exists fi f, In fi findcs /\ nth_error polys fi = Some f
                    /\ In v (vertices f).
Proof.
  unfold summarize.
  destruct (take polys findcs) as [faces| |] eqn:Et; simpl; try discriminate.
  destruct (dirs_of normals findcs) as [dirs| |]; simpl; try discriminate.
  destruct (direc_of dirs) as [direc| |]; simpl; try discriminate.
  destruct (take centrs findcs) as [pts| |]; simpl; try discriminate.
  destruct (get_bounds_and_center pts) as [[bounds c]| |]; simpl;
    try discriminate.
  destruct (getitem (coords bounds) direc); simpl; try discriminate.
  intro H. inversion H; subst. simpl. split; [apply NoDup_nodup|].
  intro v. rewrite nodup_In, in_flat_map. split.
  - intros (f & Hf & Hv). apply (take_members _ _ Et) in Hf.
    destruct Hf as (fi & Hfi & Hn). eauto.
  - intros (fi & f & Hfi & Hn & Hv). exists f. split; [|exact Hv].
    apply (take_members _ _ Et). eauto.
Qed.

Lemma summary_vertices_witness :
  summarize pocket (get_vecs pocket center) (get_vecs pocket normal)
    [0; 2; 1]
  = Done {| vindcs := [0; 3; 6; 7; 1; 2; 4; 5];
            centr := (3 # 3, 0 # 3, 2 # 3)%Q; diam := 1 |}
  /\ NoDup [0; 3; 6; 7; 1; 2; 4; 5].
Proof.
  split; [reflexivity|].
  apply (@summary_vertices pocket (get_vecs pocket center)
           (get_vecs pocket normal) [0; 2; 1]
           {| vindcs := [0; 3; 6; 7; 1; 2; 4; 5];
              centr := (3 # 3, 0 # 3, 2 # 3)%Q; diam := 1 |}).
  reflexivity.
Defined.

(** ** When a summary can be built *)

Lemma take_in_range {A : Type} (a : list A) (idxs : list nat) :
  Forall (fun i => i < length a) idxs ->
  exists xs, take a idxs = Done xs.
Proof.
  induction idxs as [|i rest IH]; intro H; simpl.
  - eauto.
  - inversion H as [|? ? Hi Hrest]; subst.
    destruct (getitem_in_range a Hi) as [x ->].
    destruct (IH Hrest) as [xs ->]. simpl. eauto.
Qed.

Lemma take_out_of_range {A : Type} (a : list A) (idxs : list nat) :
  Exists (fun i => length a <= i) idxs ->
  take a idxs = Raised IndexError.
Proof.
  induction 1 as [i rest Hi|i rest _ IH]; simpl.
  - unfold getitem. apply nth_error_None in Hi. rewrite Hi. reflexivity.
  - unfold getitem. destruct (nth_error a i); [|reflexivity].
    simpl. rewrite IH. reflexivity.
Qed.

Lemma votes_of_rows (rows : list vec) :
  exists dirs,
    mapM facing rows = Done dirs
    /\ length dirs = length rows
    /\ Forall (fun d => d < 3) dirs.
Proof.
  induction rows as [|n rows (dirs & Hd & Hl & Hv)]; cbn [mapM].
  - exists []. repeat split; constructor.
  - destruct (facing_axis n) as (k & Hk & Hk3 & _).
    rewrite Hk, Hd. cbn [bind]. exists (k :: dirs).
    repeat split; simpl; auto.
Qed.

Lemma span_nonempty (l : list Q) :
  l <> [] -> exists d, span l = Done d.
Proof.
  destruct l as [|x t]; [congruence|]. intros _. unfold span. simpl. eauto.
Qed.

(** X10. For a patch of at least two faces whose indices lie in the
    snapshot arrays, building the summary raises in exactly one case, with
    IndexError: the patch has two faces and both vote z.  Every other such
    patch gets its summary. *)
Theorem summarize_raises_iff (polys : Mesh) (centrs normals : list vec)
  (findcs : list nat) :
  length centrs = length polys ->
  length normals = length polys ->
  Forall (fun i => i < length polys) findcs ->
  2 <= length findcs ->
  (dirs_of normals findcs = Done [2; 2]
   /\ summarize polys centrs normals findcs = Raised IndexError)
  \/ (dirs_of normals findcs <> Done [2; 2]
      /\ exists s, summarize polys centrs normals findcs = Done s).
Proof.
  intros Hc Hn Hin Hlen. unfold summarize, dirs_of.
  destruct (take_in_range polys Hin) as [faces Hf].
  assert (Hin_n : Forall (fun i => i < length normals) findcs)
    by (rewrite Hn; exact Hin).
  assert (Hin_c : Forall (fun i => i < length centrs) findcs)
    by (rewrite Hc; exact Hin).
  destruct (take_in_range normals Hin_n) as [rows Hr].
  destruct (take_in_range centrs Hin_c) as [pts Hp].
  rewrite Hf, Hr. cbn [bind].
  destruct (votes_of_rows rows) as (dirs & Hd & Hl & Hv).
  rewrite Hd. cbn [bind].
  assert (Hdl : 2 <= length dirs).
  { rewrite Hl, (take_length _ _ Hr). exact Hlen. }
  destruct (direc_of_cases Hv Hdl)
    as [[-> Hraise]|(Hne & d & Hdone & _ & Hd3)].
  - left. split; [reflexivity|]. rewrite Hraise. reflexivity.
  - right. split; [congruence|]. rewrite Hdone, Hp. cbn [bind].
    assert (Hpts : pts <> []).
    { pose proof (take_length _ _ Hp) as Hpl. destruct pts; simpl in *;
        [lia|discriminate]. }
    unfold get_bounds_and_center.
    destruct (span_nonempty (l := map vx pts)) as [bx ->];
      [destruct pts; [congruence|discriminate]|].
    destruct (span_nonempty (l := map vy pts)) as [by_ ->];
      [destruct pts; [congruence|discriminate]|].
    destruct (span_nonempty (l := map vz pts)) as [bz ->];
      [destruct pts; [congruence|discriminate]|].
    cbn [bind]. unfold coords. cbn [vx vy vz fst snd].
    destruct d as [|[|[|d]]]; try lia; simpl; eauto.
Qed.

(** The crease has one patch of two faces voting z: detection raises. *)
Lemma summarize_raises_iff_witness :
  segment crease = Done [[0; 1]]
  /\ dirs_of (get_vecs crease normal) [0; 1] = Done [2; 2]
  /\ summarize crease (get_vecs crease center) (get_vecs crease normal)
       [0; 1] = Raised IndexError
  /\ exists s,
       summarize pocket (get_vecs pocket center) (get_vecs pocket normal)
         [0; 2; 1] = Done s.
Proof.
  split; [reflexivity|].
  assert (Hin2 : Forall (fun i => i < length crease) [0; 1])
    by (repeat constructor).
  assert (Hin3 : Forall (fun i => i < length pocket) [0; 2; 1])
    by (repeat constructor).
  destruct (@summarize_raises_iff crease (get_vecs crease center)
              (get_vecs crease normal) [0; 1] eq_refl eq_refl Hin2
              (le_n 2))
    as [[Hd Hr]|[Habs _]].
  - split; [exact Hd|]. split; [exact Hr|].
    destruct (@summarize_raises_iff pocket (get_vecs pocket center)
                (get_vecs pocket normal) [0; 2; 1] eq_refl eq_refl Hin3
                (le_S 2 2 (le_n 2)))
      as [[Hd' _]|[_ Hs]].
    + discriminate Hd'.
    + exact Hs.
  - exfalso. apply Habs. reflexivity.
Defined.

(** * Detection as a whole *)

Lemma detect_loop_cache (objects : list (nat * Mesh)) :
  forall self,
    detect_loop objects self
    = (first_failure objects,
       {| _limits := _limits self;
          _meshes := _meshes self ++ cache_prefix objects |}).
Proof.
  induction objects as [|[data polys] rest IH]; intro self; simpl.
  - rewrite app_nil_r. destruct self; reflexivity.
  - destruct (find_patches polys) as [patches2| |]; simpl.
    + rewrite IH. simpl. now rewrite <- app_assoc.
    + rewrite app_nil_r. destruct self; reflexivity.
    + rewrite app_nil_r. destruct self; reflexivity.
Qed.

(** Detection in closed form. *)
Lemma find_concave_patches_cache (objects : list (nat * Mesh))
  (self : CloseSolidHoles) :
  _find_concave_patches objects self
  = (first_failure objects,
     {| _limits := _limits self; _meshes := cache_prefix objects |})
  /\ (forall pre post data polys e,
        objects = pre ++ (data, polys) :: post ->
        first_failure pre = Done tt ->
        find_patches polys = Raised e ->
        first_failure objects = Raised e
        /\ cache_prefix objects = cache_prefix pre
        /\ map fst (cache_prefix pre) = map fst pre)
  /\ (first_failure objects = Done tt ->
      map fst (cache_prefix objects) = map fst objects).
Proof.
  assert (Hall : forall objs, first_failure objs = Done tt ->
                   map fst (cache_prefix objs) = map fst objs).
  { induction objs as [|[d p] rest IH]; simpl; [reflexivity|].
    destruct (find_patches p); try discriminate.
    intro H. simpl. f_equal. auto. }
  split; [|split].
  - unfold _find_concave_patches. now rewrite detect_loop_cache.
  - intros pre post data polys e -> Hpre He.
    assert (Hgen : first_failure (pre ++ (data, polys) :: post) = Raised e
                   /\ cache_prefix (pre ++ (data, polys) :: post)
                      = cache_prefix pre).
    { clear Hall. induction pre as [|[d p] pre IH]; simpl in *.
      - rewrite He. auto.
      - destruct (find_patches p); try discriminate.
        destruct (IH Hpre) as [-> ->]. auto. }
    destruct Hgen as [-> ->]. auto.
  - apply Hall.
Qed.

(** X11. Detection leaves the limits alone and drops whatever the cache
    held.  Afterwards the cache holds one entry per object, in order, for
    the objects before the first one on which detection raises; that
    object's exception is the outcome, and the objects after it are not
    looked at.  When no object raises, every object has its entry. *)
Theorem detection_cache (objects : list (nat * Mesh))
  (self : CloseSolidHoles) :
  _find_concave_patches objects self
  = (first_failure objects,
     {| _limits := _limits self; _meshes := cache_prefix objects |})
  /\ (forall pre post data polys e,
        objects = pre ++ (data, polys) :: post ->
        first_failure pre = Done tt ->
        find_patches polys = Raised e ->
        first_failure objects = Raised e
        /\ cache_prefix objects = cache_prefix pre
        /\ map fst (cache_prefix pre) = map fst pre)
  /\ (first_failure objects = Done tt ->
      map fst (cache_prefix objects) = map fst objects).
Proof. exact (find_concave_patches_cache objects self). Qed.

Lemma detection_cache_witness :
  _find_concave_patches [(7, pocket); (8, crease); (9, pocket)]
    {| _limits := (2, 3)%Q; _meshes := [(5, [sized 1])] |}
  = (Raised IndexError,
     {| _limits := (2, 3)%Q;
        _meshes := [(7, [{| vindcs := [0; 3; 6; 7; 1; 2; 4; 5];
                            centr := (3 # 3, 0 # 3, 2 # 3)%Q;
                            diam := 1 |}])] |})
  /\ map fst (cache_prefix [(7, pocket)]) = [7].
Proof.
  split; [reflexivity|].
  destruct (proj1 (proj2 (detection_cache
                            [(7, pocket); (8, crease); (9, pocket)] initial))
              [(7, pocket)] [(9, pocket)] 8 crease IndexError
              eq_refl eq_refl eq_refl)
    as (_ & _ & H).
  exact H.
Defined.

(** * Further properties of the hole closer *)

Lemma clamped_limits_empty (self : CloseSolidHoles) (value : Q * Q) (d : Q) :
  (snd value <= fst value)%Q ->
  in_limits (_limits (_set_limits self value)) d = false.
Proof.
  intro Hinv. destruct (in_limits _ d) eqn:E; [|reflexivity].
  exfalso. apply in_limits_iff in E. simpl in E. destruct E as [Hlo Hhi].
  assert (Hlt : (py_min value < snd value)%Q)
    by (eapply Qlt_trans; eassumption).
  unfold py_min in Hlt.
  destruct (Qltb (snd value) (fst value)) eqn:Ek.
  - exact (Qlt_irrefl _ Hlt).
  - exact (Qlt_not_le _ _ Hlt Hinv).
Qed.

(** X12. Writing limits whose max does not exceed the min leaves an empty
    range: with the pair the setter then stores, the loop over the patches
    of a mesh closes nothing and makes no call, whatever the diameters. *)
Theorem inverted_limits_close_nothing (h : Host) (self : CloseSolidHoles)
  (value : Q * Q) (mesh : nat) (bverts : list nat)
  (patches : list PatchSummary) (w : list call) :
  (snd value <= fst value)%Q ->
  close_patches h (_limits (_set_limits self value)) mesh bverts patches w
  = (Done tt, w).
Proof.
  intro Hinv. induction patches as [|p rest IH]; [reflexivity|].
  cbn [close_patches]. rewrite (@clamped_limits_empty self value (diam p) Hinv).
  exact IH.
Qed.

Lemma inverted_limits_close_nothing_witness :
  _limits (_set_limits initial (10, 5)%Q) = (5, 5)%Q
  /\ close_patches picky_host (_limits (_set_limits initial (10, 5)%Q)) 0
       (seq 0 8) [sized 3; sized 5; sized 7; sized 10] []
     = (Done tt, []).
Proof.
  split; [reflexivity|].
  apply (@inverted_limits_close_nothing picky_host initial (10, 5)%Q 0
           (seq 0 8) [sized 3; sized 5; sized 7; sized 10] []).
  discriminate.
Defined.

Lemma perform_result (h : Host) (c : call) (w : list call) :
  exists r, perform h c w = (r, w ++ [c]).
Proof. unfold perform. destruct (raises h w c); eauto. Qed.

(** X13. A patch naming a vertex index the mesh does not have makes the
    closing raise IndexError before any call is made.  A patch without
    vertices is merged (on no vertex), then raises IndexError at [vs[0]],
    unless the merge raised first. *)
Theorem stale_patch_raises (h : Host) (mesh : nat) (bverts : list nat)
  (p : PatchSummary) (w : list call) :
  (Exists (fun i => length bverts <= i) (vindcs p) ->
   close_patch h mesh bverts p w = (Raised IndexError, w))
  /\ (vindcs p = [] ->
      raises h w (PointMerge mesh [] (centr p)) = None ->
      close_patch h mesh bverts p w
      = (Raised IndexError, w ++ [PointMerge mesh [] (centr p)])).
Proof.
  split.
  - intro Hstale. unfold close_patch, ebind, elift.
    rewrite (take_out_of_range bverts Hstale). reflexivity.
  - intros Hnil Hok. unfold close_patch, ebind, elift, perform.
    rewrite Hnil. simpl. rewrite Hok. reflexivity.
Qed.

Lemma stale_patch_raises_witness :
  close_patch quiet_host 0 [0; 1] (sized 1) [] = (Raised IndexError, [])
  /\ close_patch quiet_host 0 [0; 1]
       {| vindcs := []; centr := (0, 0, 0)%Q; diam := 1 |} []
     = (Raised IndexError, [PointMerge 0 [] (0, 0, 0)%Q]).
Proof.
  split.
  - apply (proj1 (stale_patch_raises quiet_host 0 [0; 1] (sized 1) [])).
    right. right. left. simpl. lia.
  - apply (proj2 (stale_patch_raises quiet_host 0 [0; 1]
                    {| vindcs := []; centr := (0, 0, 0)%Q; diam := 1 |} []));
      reflexivity.
Defined.

(** What a stretch of calls looks like when it is made on one mesh between
    opening and committing it. *)
Lemma close_patch_calls (h : Host) (mesh : nat) (bverts : list nat)
  (p : PatchSummary) (w : list call) :
  exists added,
    snd (close_patch h mesh bverts p w) = w ++ added
    /\ Forall (fun c => call_mesh c = mesh) added
    /\ filter is_commit added = []
    /\ filter is_open added = [].
Proof.
  unfold close_patch, ebind, elift.
  destruct (take bverts (vindcs p)) as [vs| |]; simpl;
    try solve [exists []; rewrite app_nil_r; repeat split; constructor].
  destruct (perform_result h (PointMerge mesh vs (centr p)) w) as [r ->].
  destruct r as [[]| |]; simpl;
    try solve [exists [PointMerge mesh vs (centr p)];
               repeat split; repeat constructor].
  destruct (getitem vs 0) as [v0| |]; simpl;
    try solve [exists [PointMerge mesh vs (centr p)];
               repeat split; repeat constructor].
  destruct (perform_result h (DissolveVerts mesh [v0])
              (w ++ [PointMerge mesh vs (centr p)])) as [r ->].
  simpl. exists [PointMerge mesh vs (centr p); DissolveVerts mesh [v0]].
  rewrite <- app_assoc. repeat split; repeat constructor.
Qed.

Lemma close_patches_calls (h : Host) (limits : Q * Q) (mesh : nat)
  (bverts : list nat) (patches : list PatchSummary) :
  forall w,
  exists added,
    snd (close_patches h limits mesh bverts patches w) = w ++ added
    /\ Forall (fun c => call_mesh c = mesh) added
    /\ filter is_commit added = []
    /\ filter is_open added = [].
Proof.
  induction patches as [|p rest IH]; intro w; cbn [close_patches].
  - exists []. simpl. rewrite app_nil_r. repeat split; constructor.
  - destruct (negb (in_limits limits (diam p))); [apply IH|].
    unfold ebind.
    destruct (close_patch_calls h mesh bverts p w)
      as (a1 & Hw1 & Hm1 & Hc1 & Ho1).
    destruct (close_patch h mesh bverts p w) as [[[]| |] w1]; simpl in Hw1;
      subst w1; simpl; eauto.
    destruct (IH (w ++ a1)) as (a2 & Hw2 & Hm2 & Hc2 & Ho2).
    exists (a1 ++ a2). rewrite Hw2, <- app_assoc.
    repeat split; auto.
    + apply Forall_app. auto.
    + rewrite filter_app, Hc1, Hc2. reflexivity.
    + rewrite filter_app, Ho1, Ho2. reflexivity.
Qed.

Lemma execute_mesh_calls (h : Host) (limits : Q * Q) (mesh : nat)
  (patches : list PatchSummary) (w : list call) :
  exists added,
    snd (execute_mesh h limits (mesh, patches) w) = w ++ added
    /\ Forall (fun c => call_mesh c = mesh) added
    /\ (fst (execute_mesh h limits (mesh, patches) w) = Done tt ->
        filter is_commit added = [UpdateEditMesh mesh]
        /\ filter is_open added = [FromEditMesh mesh]).
Proof.
  unfold execute_mesh, ebind.
  destruct (perform_result h (FromEditMesh mesh) w) as [r ->].
  destruct r as [[]| |]; simpl;
    try solve [exists [FromEditMesh mesh];
               split; [reflexivity|];
               split; [repeat constructor|intro Hd; discriminate Hd]].
  destruct (close_patches_calls h limits mesh
              (verts_of h (w ++ [FromEditMesh mesh]) mesh) patches
              (w ++ [FromEditMesh mesh])) as (a & Hw & Hm & Hc & Ho).
  destruct (close_patches h limits mesh
              (verts_of h (w ++ [FromEditMesh mesh]) mesh) patches
              (w ++ [FromEditMesh mesh])) as [[[]| |] w1];
    simpl in Hw; subst w1; simpl;
    try solve [exists (FromEditMesh mesh :: a); rewrite <- app_assoc;
               split; [reflexivity|];
               split; [constructor; auto|intro Hd; discriminate Hd]].
  destruct (perform_result h (UpdateEditMesh mesh)
              ((w ++ [FromEditMesh mesh]) ++ a)) as [r ->].
  simpl. exists (FromEditMesh mesh :: a ++ [UpdateEditMesh mesh]).
  split; [now rewrite <- !app_assoc|].
  split.
  - constructor; [reflexivity|]. apply Forall_app. split; auto.
  - intros _. simpl. rewrite !filter_app, Hc, Ho. split; reflexivity.
Qed.

Lemma execute_loop_calls (h : Host) (limits : Q * Q)
  (meshes : list (nat * list PatchSummary)) :
  forall w,
  exists added,
    snd (execute_loop h limits meshes w) = w ++ added
    /\ Forall (fun c => In (call_mesh c) (map fst meshes)) added
    /\ (fst (execute_loop h limits meshes w) = Done tt ->
        filter is_commit added = map UpdateEditMesh (map fst meshes)
        /\ filter is_open added = map FromEditMesh (map fst meshes)).
Proof.
  induction meshes as [|[mesh patches] rest IH]; intro w;
    cbn [execute_loop].
  - exists []. simpl. rewrite app_nil_r. repeat split; constructor.
  - unfold ebind.
    destruct (execute_mesh_calls h limits mesh patches w)
      as (a1 & Hw1 & Hm1 & Hd1).
    destruct (execute_mesh h limits (mesh, patches) w) as [r1 w1].
    simpl in Hw1, Hd1. subst w1.
    assert (Hm1' : Forall (fun c => In (call_mesh c)
                                      (map fst ((mesh, patches) :: rest))) a1).
    { eapply Forall_impl; [|exact Hm1]. simpl. intros c ->. now left. }
    destruct r1 as [[]| |]; simpl;
      try solve [exists a1; split; [reflexivity|];
                 split; [exact Hm1'|intro Hd; discriminate Hd]].
    destruct (IH (w ++ a1)) as (a2 & Hw2 & Hm2 & Hd2).
    exists (a1 ++ a2). rewrite Hw2, <- app_assoc.
    split; [reflexivity|]. split.
    + apply Forall_app. split; [exact Hm1'|].
      eapply Forall_impl; [|exact Hm2]. simpl. intros c Hc. now right.
    + intro Hdone. destruct (Hd1 eq_refl) as [Hc1 Ho1].
      destruct (Hd2 Hdone) as [Hc2 Ho2].
      rewrite !filter_app, Hc1, Ho1, Hc2, Ho2. split; reflexivity.
Qed.

(** X14. Whatever happens, apply only adds calls to the history, and every
    call it makes is on a mesh of the cache.  When apply completes, it has
    opened each cached mesh once and committed each once, in the order of
    the cache. *)
Theorem execute_touches_cached_meshes (h : Host) (self : CloseSolidHoles)
  (w : list call) :
  exists added,
    snd (execute h self w) = w ++ added
    /\ Forall (fun c => In (call_mesh c) (map fst (_meshes self))) added
    /\ (fst (execute h self w) = Done tt ->
        filter is_commit added
        = map UpdateEditMesh (map fst (_meshes self))
        /\ filter is_open added
           = map FromEditMesh (map fst (_meshes self))).
Proof. unfold execute. apply execute_loop_calls. Qed.



(** * Select Similar *)

Lemma similar_iff (limits : Q * Q) (v : Q) :
  SelectSimilar.similar limits v = true
  <-> (fst limits <= v /\ v < snd limits)%Q.
Proof.
  unfold SelectSimilar.similar.
  rewrite andb_true_iff, Qle_bool_iff, Qltb_lt. reflexivity.
Qed.

Lemma select_loop_known (known : String.string -> bool) (limits : Q * Q)
  (items : list (String.string * Q)) :
  forall w,
    Forall (fun kv => known (fst kv) = true) items ->
    SelectSimilar.select_loop known limits items w
    = (SelectSimilar.Returned SelectSimilar.FINISHED,
       w ++ map (fun kv => SelectSimilar.SelectSet (fst kv)
                             (SelectSimilar.similar limits (snd kv)))
              items).
Proof.
  induction items as [|[n v] rest IH]; intros w Hk; simpl.
  - now rewrite app_nil_r.
  - inversion Hk as [|? ? Hn Hrest]; subst. simpl in Hn. rewrite Hn.
    rewrite IH by exact Hrest. now rewrite <- app_assoc.
Qed.

(** X16. With samples at hand and every sampled name still in the scene,
    [execute] finishes after one [select_set] per sampled object, in the
    order of the dict, and nothing else.  An object is selected when
    [mins <= simval < maxs] and deselected otherwise: the range includes
    its lower end and excludes its upper end. *)
Theorem select_range_half_open (known : String.string -> bool)
  (self : SelectSimilar.state) (w : list SelectSimilar.event) :
  SelectSimilar.svals self <> [] ->
  Forall (fun kv => known (fst kv) = true) (SelectSimilar.svals self) ->
  SelectSimilar.execute known self w
  = (SelectSimilar.Returned SelectSimilar.FINISHED,
     w ++ map (fun kv =>
                 SelectSimilar.SelectSet (fst kv)
                   (SelectSimilar.similar (SelectSimilar._sim_limits self)
                      (snd kv)))
            (SelectSimilar.svals self))
  /\ (forall v,
        SelectSimilar.similar (SelectSimilar._sim_limits self) v = true
        <-> (fst (SelectSimilar._sim_limits self) <= v
             /\ v < snd (SelectSimilar._sim_limits self))%Q)
  /\ ((fst (SelectSimilar._sim_limits self)
       < snd (SelectSimilar._sim_limits self))%Q ->
      SelectSimilar.similar (SelectSimilar._sim_limits self)
        (fst (SelectSimilar._sim_limits self)) = true)
  /\ SelectSimilar.similar (SelectSimilar._sim_limits self)
       (snd (SelectSimilar._sim_limits self)) = false.
Proof.
  intros Hne Hk. split; [|split; [|split]].
  - unfold SelectSimilar.execute.
    destruct (SelectSimilar.svals self) as [|kv rest] eqn:E; [congruence|].
    apply select_loop_known. exact Hk.
  - intro v. apply similar_iff.
  - intro Hlt. apply similar_iff. split; [apply Qle_refl|exact Hlt].
  - unfold SelectSimilar.similar. rewrite Qltb_irrefl. apply andb_false_r.
Qed.

Lemma select_range_half_open_witness :
  SelectSimilar.execute (fun _ => true)
    {| SelectSimilar._sim_limits := (1 # 4, 1 # 2)%Q;
       SelectSimilar._samplecnt := 512%Z; SelectSimilar.bincnt := 32%Z;
       SelectSimilar.svals :=
         [("Sphere"%string, 1 # 4); ("Cone"%string, 1 # 2);
          ("Torus"%string, 1 # 3)]%Q |} []
  = (SelectSimilar.Returned SelectSimilar.FINISHED,
     [SelectSimilar.SelectSet "Sphere"%string true;
      SelectSimilar.SelectSet "Cone"%string false;
      SelectSimilar.SelectSet "Torus"%string true]).
Proof.
  apply (proj1 (@select_range_half_open (fun _ => true)
           {| SelectSimilar._sim_limits := (1 # 4, 1 # 2)%Q;
              SelectSimilar._samplecnt := 512%Z;
              SelectSimilar.bincnt := 32%Z;
              SelectSimilar.svals :=
                [("Sphere"%string, 1 # 4); ("Cone"%string, 1 # 2);
                 ("Torus"%string, 1 # 3)]%Q |} []
           ltac:(discriminate) ltac:(repeat constructor))).
Defined.

(** X17. Without samples [execute] cancels: it reports "Sample first" and
    selects nothing.  When a sampled name is no longer in the scene, the
    objects before it in the dict have been (de)selected, the lookup raises
    KeyError, and the objects after it are left as they were. *)
Theorem select_without_samples_or_object (known : String.string -> bool)
  (self : SelectSimilar.state) (w : list SelectSimilar.event) :
  (SelectSimilar.svals self = [] ->
   SelectSimilar.execute known self w
   = (SelectSimilar.Returned SelectSimilar.CANCELLED,
      w ++ [SelectSimilar.Report "ERROR_INVALID_INPUT"%string
              "Sample first"%string]))
  /\ (forall pre gone v post,
        SelectSimilar.svals self = pre ++ (gone, v) :: post ->
        Forall (fun kv => known (fst kv) = true) pre ->
        known gone = false ->
        SelectSimilar.execute known self w
        = (SelectSimilar.KeyError gone,
           w ++ map (fun kv =>
                       SelectSimilar.SelectSet (fst kv)
                         (SelectSimilar.similar
                            (SelectSimilar._sim_limits self) (snd kv)))
                  pre)).
Proof.
  split.
  - intro E. unfold SelectSimilar.execute. rewrite E. reflexivity.
  - intros pre gone v post E Hpre Hgone.
    assert (Hloop : forall w0,
               SelectSimilar.select_loop known
                 (SelectSimilar._sim_limits self)
                 (pre ++ (gone, v) :: post) w0
               = (SelectSimilar.KeyError gone,
                  w0 ++ map (fun kv =>
                               SelectSimilar.SelectSet (fst kv)
                                 (SelectSimilar.similar
                                    (SelectSimilar._sim_limits self)
                                    (snd kv)))
                          pre)).
    { clear E. induction pre as [|[n x] pre IH]; intro w0; simpl.
      - rewrite Hgone, app_nil_r. reflexivity.
      - inversion Hpre as [|? ? Hn Hrest]; subst. simpl in Hn. rewrite Hn.
        rewrite (IH Hrest). now rewrite <- app_assoc. }
    unfold SelectSimilar.execute, SelectSimilar._get_sim_limits.
    rewrite E. specialize (Hloop w).
    destruct pre as [|kv pre']; cbn [app] in *; exact Hloop.
Qed.

Lemma select_without_samples_or_object_witness :
  SelectSimilar.execute (fun n => negb (String.eqb n "Cone"%string))
    {| SelectSimilar._sim_limits := (0, 1)%Q;
       SelectSimilar._samplecnt := 512%Z; SelectSimilar.bincnt := 32%Z;
       SelectSimilar.svals :=
         [("Sphere"%string, 1 # 4); ("Cone"%string, 1 # 2);
          ("Torus"%string, 1 # 3)]%Q |} []
  = (SelectSimilar.KeyError "Cone"%string,
     [SelectSimilar.SelectSet "Sphere"%string true]).
Proof.
  apply (proj2 (@select_without_samples_or_object
                  (fun n => negb (String.eqb n "Cone"%string))
                  {| SelectSimilar._sim_limits := (0, 1)%Q;
                     SelectSimilar._samplecnt := 512%Z;
                     SelectSimilar.bincnt := 32%Z;
                     SelectSimilar.svals :=
                       [("Sphere"%string, 1 # 4); ("Cone"%string, 1 # 2);
                        ("Torus"%string, 1 # 3)]%Q |} [])
           [("Sphere"%string, (1 # 4)%Q)] "Cone"%string (1 # 2)%Q
           [("Torus"%string, (1 # 3)%Q)]
           eq_refl ltac:(repeat constructor) eq_refl).
Defined.

(** X18. The similarity limits setter stores min <= max, lowering the min
    to the max when needed.  When the max written does not exceed the min,
    the stored range is empty: no similarity value is accepted, so
    [execute] deselects every sampled object. *)
Theorem sim_limits_clamped (self : SelectSimilar.state) (val : Q * Q) :
  (fst (SelectSimilar._sim_limits (SelectSimilar._set_sim_limits self val))
   <= snd (SelectSimilar._sim_limits
             (SelectSimilar._set_sim_limits self val)))%Q
  /\ snd (SelectSimilar._sim_limits (SelectSimilar._set_sim_limits self val))
     = snd val
  /\ ((snd val <= fst val)%Q ->
      forall v,
        SelectSimilar.similar
          (SelectSimilar._sim_limits (SelectSimilar._set_sim_limits self val))
          v = false).
Proof.
  simpl. split; [apply py_min_le_snd|]. split; [reflexivity|].
  intros Hinv v.
  destruct (SelectSimilar.similar (py_min val, snd val) v) eqn:E;
    [|reflexivity].
  exfalso. apply similar_iff in E. simpl in E. destruct E as [Hlo Hhi].
  assert (Hlt : (py_min val < snd val)%Q)
    by (eapply Qle_lt_trans; eassumption).
  unfold py_min in Hlt. destruct (Qltb (snd val) (fst val)) eqn:Ek.
  - exact (Qlt_irrefl _ Hlt).
  - exact (Qlt_not_le _ _ Hlt Hinv).
Qed.

(** X19. For a sample count in the declared range 16..16384 the setter
    returns, stores the count, and sets the bin count to the ceiling of its
    square root: the least k with k*k >= count, between 4 and 128.  The
    initial attributes (512 samples, 32 bins) do not stand in that
    relation. *)
Theorem samplecnt_sets_bincnt (self : SelectSimilar.state) (val : Z) :
  (16 <= val <= 16384)%Z ->
  exists self',
    SelectSimilar._set_samplecnt self val = (Done tt, self')
    /\ SelectSimilar._samplecnt self' = val
    /\ (4 <= SelectSimilar.bincnt self' <= 128)%Z
    /\ (val <= SelectSimilar.bincnt self' * SelectSimilar.bincnt self')%Z
    /\ ((SelectSimilar.bincnt self' - 1) * (SelectSimilar.bincnt self' - 1)
        < val)%Z
    /\ SelectSimilar.bincnt SelectSimilar.initial
       <> Z.sqrt_up (SelectSimilar._samplecnt SelectSimilar.initial).
Proof.
  intro Hr. unfold SelectSimilar._set_samplecnt.
  assert (Hneg : (val <? 0)%Z = false) by (apply Z.ltb_ge; lia).
  rewrite Hneg. eexists. split; [reflexivity|]. simpl.
  assert (Hpos : (0 < val)%Z) by lia.
  pose proof (Z.sqrt_up_spec val Hpos) as [Hlo Hhi].
  pose proof (Z.sqrt_up_le_mono 16 val (proj1 Hr)) as H4.
  pose proof (Z.sqrt_up_le_mono val 16384 (proj2 Hr)) as H128.
  change (Z.sqrt_up 16) with 4%Z in H4.
  change (Z.sqrt_up 16384) with 128%Z in H128.
  repeat split; auto.
  intro Hd. vm_compute in Hd. discriminate Hd.
Qed.

Lemma samplecnt_sets_bincnt_witness :
  exists self',
    SelectSimilar._set_samplecnt SelectSimilar.initial 1000 = (Done tt, self')
    /\ SelectSimilar._samplecnt self' = 1000%Z
    /\ (4 <= SelectSimilar.bincnt self' <= 128)%Z
    /\ (1000 <= SelectSimilar.bincnt self' * SelectSimilar.bincnt self')%Z
    /\ ((SelectSimilar.bincnt self' - 1) * (SelectSimilar.bincnt self' - 1)
        < 1000)%Z
    /\ SelectSimilar.bincnt SelectSimilar.initial
       <> Z.sqrt_up (SelectSimilar._samplecnt SelectSimilar.initial).
Proof.
  apply (@samplecnt_sets_bincnt SelectSimilar.initial 1000%Z). lia.
Defined.

(** ** Sampling the candidates *)

Lemma dict_set_keys (d : list (String.string * Q)) (key : String.string)
  (value : Q) (n : String.string) :
  In n (map fst (SelectSimilar.dict_set d key value))
  <-> In n (map fst d) \/ n = key.
Proof.
  induction d as [|[k v] rest IH]; simpl.
  - split; intro H.
    + destruct H as [<- |[]]. now right.
    + destruct H as [[]| ->]. now left.
  - destruct (String.eqb k key) eqn:E; simpl.
    + apply String.eqb_eq in E. subst k. intuition congruence.
    + rewrite IH. tauto.
Qed.

Lemma dict_set_nodup (d : list (String.string * Q)) (key : String.string)
  (value : Q) :
  NoDup (map fst d) -> NoDup (map fst (SelectSimilar.dict_set d key value)).
Proof.
  induction d as [|[k v] rest IH]; simpl; intro H.
  - constructor; [intros []|constructor].
  - inversion H as [|? ? Hk Hrest]; subst.
    destruct (String.eqb k key) eqn:E; simpl.
    + constructor; auto.
    + constructor; auto. rewrite dict_set_keys. intros [Hin| ->]; auto.
      rewrite String.eqb_refl in E. discriminate.
Qed.

Lemma dict_set_nonempty (d : list (String.string * Q))
  (key : String.string) (value : Q) :
  SelectSimilar.dict_set d key value <> [].
Proof.
  destruct d as [|[k v] rest]; simpl; [discriminate|].
  destruct (String.eqb k key); discriminate.
Qed.

Section Sampling.

Variable distrib : SelectSimilar.Obj -> outcome (list Q).
Variable ob : SelectSimilar.Obj.
Variable ahist : list Q.

Lemma compare_loop_spec (selobs : list SelectSimilar.Obj) :
  forall sv flag w,
    (forall o, In o selobs -> compared_with ob o = true ->
               exists h, distrib o = Done h) ->
    NoDup (map fst sv) ->
    (flag = false -> sv <> []) ->
    exists sv' added,
      SelectSimilar.compare_loop distrib ob ahist selobs sv flag w
      = (SelectSimilar.Returned
           (negb flag || existsb (compared_with ob) selobs),
         sv', w ++ added)
      /\ NoDup (map fst sv')
      /\ (forall n, In n (map fst sv') <->
            In n (map fst sv)
            \/ exists o, In o selobs /\ compared_with ob o = true
                         /\ SelectSimilar.name o = n)
      /\ (negb flag || existsb (compared_with ob) selobs = true ->
          sv' <> [])
      /\ (negb flag || existsb (compared_with ob) selobs = false ->
          sv' = sv)
      /\ (forall n b, ~ In (SelectSimilar.SelectSet n b) added)
      /\ ~ In (SelectSimilar.Report "ERROR_INVALID_INPUT"%string
                 "Sample first"%string) added.
Proof.
  induction selobs as [|o rest IH]; intros sv flag w Hd Hnd Hflag;
    cbn [SelectSimilar.compare_loop existsb].
  - rewrite orb_false_r. destruct flag; cbn [negb].
    + exists sv.
      exists [SelectSimilar.Report "ERROR_INVALID_INPUT"%string
                "An object must be of type mesh"%string].
      split; [reflexivity|]. split; [exact Hnd|]. split.
      { intro n. split; [auto|]. intros [Hin|(o & [] & _)]. exact Hin. }
      split; [discriminate|]. split; [reflexivity|]. split.
      { intros n b [Habs|[]]. discriminate Habs. }
      intros [Habs|[]]. discriminate Habs.
    + exists sv, []. rewrite app_nil_r.
      split; [reflexivity|]. split; [exact Hnd|]. split.
      { intro n. split; [auto|]. intros [Hin|(o & [] & _)]. exact Hin. }
      split; [intros _; auto|]. split; [discriminate|].
      split; [intros n b []|intros []].
  - assert (Hskip : negb (SelectSimilar.is_mesh o)
                    || Nat.eqb (SelectSimilar.ident o) (SelectSimilar.ident ob)
                    = negb (compared_with ob o)).
    { unfold compared_with.
      destruct (SelectSimilar.is_mesh o),
        (Nat.eqb (SelectSimilar.ident o) (SelectSimilar.ident ob));
        reflexivity. }
    rewrite Hskip.
    destruct (compared_with ob o) eqn:Ec; cbn [negb orb].
    + destruct (Hd o (or_introl eq_refl) Ec) as [h Hh]. rewrite Hh.
      destruct (IH (SelectSimilar.dict_set sv (SelectSimilar.name o)
                      (SelectSimilar.l1_distance h ahist))
                   false (w ++ [SelectSimilar.SaveBarPlot
                                  (SelectSimilar.name o)]))
        as (sv' & added & Hrun & Hnd' & Hkeys & Hne & _ & Hsel & Hrep).
      * intros o' Ho'. apply Hd. now right.
      * apply dict_set_nodup. exact Hnd.
      * intros _. apply dict_set_nonempty.
      * exists sv', (SelectSimilar.SaveBarPlot (SelectSimilar.name o)
                     :: added).
        cbn [negb orb] in Hrun, Hne. rewrite Hrun, orb_true_r, <- app_assoc.
        split; [reflexivity|]. split; [exact Hnd'|]. split.
        { intro n. rewrite Hkeys, dict_set_keys. split.
          - intros [[Hin| ->]|(o' & Ho' & Hc' & Hn')].
            + now left.
            + right. exists o. repeat split; auto. now left.
            + right. exists o'. repeat split; auto. now right.
          - intros [Hin|(o' & [<- |Ho'] & Hc' & Hn')].
            + left. now left.
            + left. right. now symmetry.
            + right. exists o'. auto. }
        split; [intros _; apply Hne; reflexivity|].
        split; [discriminate|]. split.
        { intros n b [Habs|Hin]; [discriminate Habs|].
          exact (Hsel n b Hin). }
        intros [Habs|Hin]; [discriminate Habs|]. exact (Hrep Hin).
    + destruct (IH sv flag w) as
        (sv' & added & Hrun & Hnd' & Hkeys & Hne & Hsame & Hsel & Hrep);
        auto.
      * intros o' Ho'. apply Hd. now right.
      * exists sv', added. rewrite Hrun.
        split; [reflexivity|]. split; [exact Hnd'|]. split.
        { intro n. rewrite Hkeys. split.
          - intros [Hin|(o' & Ho' & Hc' & Hn')]; [now left|].
            right. exists o'. repeat split; auto. now right.
          - intros [Hin|(o' & [<- |Ho'] & Hc' & Hn')]; [now left| |].
            + congruence.
            + right. exists o'. auto. }
        split; [exact Hne|]. split; [exact Hsame|]. split; assumption.
Qed.

End Sampling.

(** The dict and the events [_comp_shape_distribs] leaves. *)
Lemma comp_shape_distribs_dict
  (distrib : SelectSimilar.Obj -> outcome (list Q))
  (context : SelectSimilar.Context) (ob : SelectSimilar.Obj)
  (self : SelectSimilar.state) (w : list SelectSimilar.event)
  (ahist : list Q) :
  distrib ob = Done ahist ->
  (forall o, In o (SelectSimilar.selobs_of context) ->
             compared_with ob o = true -> exists h, distrib o = Done h) ->
  exists self' added,
    SelectSimilar._comp_shape_distribs distrib context ob self w
    = (SelectSimilar.Returned
         (existsb (compared_with ob) (SelectSimilar.selobs_of context)),
       self', w ++ added)
    /\ SelectSimilar._sim_limits self' = SelectSimilar._sim_limits self
    /\ NoDup (map fst (SelectSimilar.svals self'))
    /\ (forall n, In n (map fst (SelectSimilar.svals self')) <->
          exists o, In o (SelectSimilar.selobs_of context)
                    /\ SelectSimilar.is_mesh o = true
                    /\ SelectSimilar.ident o <> SelectSimilar.ident ob
                    /\ SelectSimilar.name o = n)
    /\ (existsb (compared_with ob) (SelectSimilar.selobs_of context) = true
        <-> SelectSimilar.svals self' <> [])
    /\ (forall n b, ~ In (SelectSimilar.SelectSet n b) added)
    /\ ~ In (SelectSimilar.Report "ERROR_INVALID_INPUT"%string
               "Sample first"%string) added.
Proof.
  intros Ha Hd. unfold SelectSimilar._comp_shape_distribs. rewrite Ha.
  destruct (compare_loop_spec distrib ob ahist
              (SelectSimilar.selobs_of context) (sv := []) (flag := true)
              (w ++ [SelectSimilar.SaveBarPlot (SelectSimilar.name ob)])
              Hd (NoDup_nil _) ltac:(discriminate))
    as (sv' & added & Hrun & Hnd & Hkeys & Hne & Hsame & Hsel & Hrep).
  simpl in Hrun. rewrite Hrun. simpl in Hne, Hsame.
  eexists _, (SelectSimilar.SaveBarPlot (SelectSimilar.name ob) :: added).
  rewrite <- app_assoc. split; [reflexivity|]. simpl.
  split; [reflexivity|]. split; [exact Hnd|]. split; [|split; [|split]].
  - intro n. rewrite Hkeys. simpl. split.
    + intros [[]|(o & Ho & Hc & Hn)]. exists o.
      unfold compared_with in Hc. apply andb_true_iff in Hc.
      destruct Hc as [Hm Hi]. apply negb_true_iff in Hi.
      apply Nat.eqb_neq in Hi. auto.
    + intros (o & Ho & Hm & Hi & Hn). right. exists o.
      repeat split; auto. unfold compared_with. rewrite Hm. simpl.
      apply negb_true_iff. now apply Nat.eqb_neq.
  - split; [exact Hne|].
    intro Hnonempty.
    destruct (existsb (compared_with ob) (SelectSimilar.selobs_of context));
      [reflexivity|].
    exfalso. apply Hnonempty. exact (Hsame eq_refl).
  - intros n b [Habs|Hin]; [discriminate Habs|]. exact (Hsel n b Hin).
  - intros [Habs|Hin]; [discriminate Habs|]. exact (Hrep Hin).
Qed.

(** X20. [_comp_shape_distribs], when no sampling raises: the dict is
    rebuilt from nothing and its keys are exactly the names of the
    candidate objects that are meshes other than the active object; the
    candidates are the selection when it has at least two objects, else the
    active collection.  It returns True exactly when there is such an
    object, and then the dict is not empty; otherwise the dict is empty.
    It never (de)selects anything. *)
Theorem comp_shape_distribs_keys
  (distrib : SelectSimilar.Obj -> outcome (list Q))
  (context : SelectSimilar.Context) (ob : SelectSimilar.Obj)
  (self : SelectSimilar.state) (w : list SelectSimilar.event)
  (ahist : list Q) :
  distrib ob = Done ahist ->
  (forall o, In o (SelectSimilar.selobs_of context) ->
             compared_with ob o = true -> exists h, distrib o = Done h) ->
  exists self' added,
    SelectSimilar._comp_shape_distribs distrib context ob self w
    = (SelectSimilar.Returned
         (existsb (compared_with ob) (SelectSimilar.selobs_of context)),
       self', w ++ added)
    /\ SelectSimilar._sim_limits self' = SelectSimilar._sim_limits self
    /\ NoDup (map fst (SelectSimilar.svals self'))
    /\ (forall n, In n (map fst (SelectSimilar.svals self')) <->
          exists o, In o (SelectSimilar.selobs_of context)
                    /\ SelectSimilar.is_mesh o = true
                    /\ SelectSimilar.ident o <> SelectSimilar.ident ob
                    /\ SelectSimilar.name o = n)
    /\ (existsb (compared_with ob) (SelectSimilar.selobs_of context) = true
        <-> SelectSimilar.svals self' <> [])
    /\ (forall n b, ~ In (SelectSimilar.SelectSet n b) added)
    /\ ~ In (SelectSimilar.Report "ERROR_INVALID_INPUT"%string
               "Sample first"%string) added.
Proof. exact (@comp_shape_distribs_dict distrib context ob self w ahist). Qed.

Lemma comp_shape_distribs_keys_witness :
  exists self' added,
    SelectSimilar._comp_shape_distribs SelectSimilar.scene_distrib
      SelectSimilar.scene SelectSimilar.cube SelectSimilar.initial []
    = (SelectSimilar.Returned
         (existsb (compared_with SelectSimilar.cube)
            (SelectSimilar.selobs_of SelectSimilar.scene)),
       self', [] ++ added)
    /\ SelectSimilar._sim_limits self'
       = SelectSimilar._sim_limits SelectSimilar.initial
    /\ NoDup (map fst (SelectSimilar.svals self'))
    /\ (forall n, In n (map fst (SelectSimilar.svals self')) <->
          exists o, In o (SelectSimilar.selobs_of SelectSimilar.scene)
                    /\ SelectSimilar.is_mesh o = true
                    /\ SelectSimilar.ident o
                       <> SelectSimilar.ident SelectSimilar.cube
                    /\ SelectSimilar.name o = n)
    /\ (existsb (compared_with SelectSimilar.cube)
          (SelectSimilar.selobs_of SelectSimilar.scene) = true
        <-> SelectSimilar.svals self' <> [])
    /\ (forall n b, ~ In (SelectSimilar.SelectSet n b) added)
    /\ ~ In (SelectSimilar.Report "ERROR_INVALID_INPUT"%string
               "Sample first"%string) added.
Proof.
  apply (@comp_shape_distribs_keys SelectSimilar.scene_distrib
           SelectSimilar.scene SelectSimilar.cube SelectSimilar.initial []
           [1 # 2; 1 # 2]%Q eq_refl).
  intros o Ho Hc. simpl in Ho.
  destruct Ho as [<- |[<- |[<- |[<- |[]]]]]; try discriminate Hc;
    eexists; reflexivity.
Defined.

Lemma select_loop_events (known : String.string -> bool) (limits : Q * Q)
  (items : list (String.string * Q)) :
  forall w,
  exists r added,
    SelectSimilar.select_loop known limits items w = (r, w ++ added)
    /\ Forall (fun ev => exists n b,
                 ev = SelectSimilar.SelectSet n b /\ In n (map fst items))
         added.
Proof.
  induction items as [|[n v] rest IH]; intro w; simpl.
  - exists (SelectSimilar.Returned SelectSimilar.FINISHED), [].
    rewrite app_nil_r. split; [reflexivity|constructor].
  - destruct (known n).
    + destruct (IH (w ++ [SelectSimilar.SelectSet n
                            (SelectSimilar.similar limits v)]))
        as (r & added & Hrun & Hall).
      exists r, (SelectSimilar.SelectSet n (SelectSimilar.similar limits v)
                 :: added).
      rewrite Hrun, <- app_assoc. split; [reflexivity|].
      constructor.
      * exists n, (SelectSimilar.similar limits v). split; auto.
      * eapply Forall_impl; [|exact Hall]. simpl.
        intros ev (n' & b & -> & Hin). exists n', b. split; auto.
    + exists (SelectSimilar.KeyError n), []. rewrite app_nil_r.
      split; [reflexivity|constructor].
Qed.

(** X21. [invoke], when no sampling raises.  It only ever (de)selects
    candidate objects that are meshes other than the active object, by
    name.  It never reports "Sample first": when no candidate qualifies it
    reports that an object must be a mesh and cancels with an empty dict,
    and otherwise the dict it has just filled is not empty. *)
Theorem invoke_selects_compared_only
  (distrib : SelectSimilar.Obj -> outcome (list Q))
  (known : String.string -> bool)
  (context : SelectSimilar.Context) (ob : SelectSimilar.Obj)
  (self : SelectSimilar.state) (w : list SelectSimilar.event)
  (ahist : list Q) :
  distrib ob = Done ahist ->
  (forall o, In o (SelectSimilar.selobs_of context) ->
             compared_with ob o = true -> exists h, distrib o = Done h) ->
  exists r self' added,
    SelectSimilar.invoke distrib known context ob self w
    = (r, self', w ++ added)
    /\ (forall n b, In (SelectSimilar.SelectSet n b) added ->
          exists o, In o (SelectSimilar.selobs_of context)
                    /\ SelectSimilar.is_mesh o = true
                    /\ SelectSimilar.ident o <> SelectSimilar.ident ob
                    /\ SelectSimilar.name o = n)
    /\ ~ In (SelectSimilar.Report "ERROR_INVALID_INPUT"%string
               "Sample first"%string) added
    /\ (existsb (compared_with ob) (SelectSimilar.selobs_of context) = false ->
        r = SelectSimilar.Returned SelectSimilar.CANCELLED
        /\ SelectSimilar.svals self' = []
        /\ forall n b, ~ In (SelectSimilar.SelectSet n b) added).
Proof.
  intros Ha Hd.
  destruct (@comp_shape_distribs_dict distrib context ob self w ahist Ha Hd)
    as (self' & a1 & Hrun & _ & _ & Hkeys & Hne & Hsel & Hrep).
  unfold SelectSimilar.invoke. rewrite Hrun.
  destruct (existsb (compared_with ob) (SelectSimilar.selobs_of context))
    eqn:Ex.
  - assert (Hsv : SelectSimilar.svals self' <> []) by (apply Hne; reflexivity).
    unfold SelectSimilar.execute.
    destruct (SelectSimilar.svals self') as [|kv items] eqn:Es;
      [congruence|].
    destruct (select_loop_events known
                (SelectSimilar._get_sim_limits self') (kv :: items)
                (w ++ a1)) as (r & a2 & Hloop & Hall).
    rewrite Hloop. exists r, self', (a1 ++ a2). rewrite <- app_assoc.
    split; [reflexivity|]. split; [|split].
    + intros n b Hin. apply in_app_or in Hin. destruct Hin as [Hin|Hin].
      * exfalso. exact (Hsel n b Hin).
      * rewrite Forall_forall in Hall.
        destruct (Hall _ Hin) as (n' & b' & Heq & Hk).
        inversion Heq; subst n' b'. apply Hkeys.
        first [exact Hk | rewrite Es; exact Hk].
    + intro Hin. apply in_app_or in Hin. destruct Hin as [Hin|Hin].
      * exact (Hrep Hin).
      * rewrite Forall_forall in Hall.
        destruct (Hall _ Hin) as (n' & b' & Heq & _). discriminate Heq.
    + discriminate.
  - exists (SelectSimilar.Returned SelectSimilar.CANCELLED), self', a1.
    split; [reflexivity|]. split; [|split].
    + intros n b Hin. exfalso. exact (Hsel n b Hin).
    + exact Hrep.
    + intros _. split; [reflexivity|]. split; [|exact Hsel].
      destruct (SelectSimilar.svals self') eqn:Es; [reflexivity|].
      assert (Habs : false = true) by (apply Hne; discriminate).
      discriminate Habs.
Qed.

Lemma invoke_selects_compared_only_witness :
  SelectSimilar.invoke SelectSimilar.scene_distrib (fun _ => true)
    SelectSimilar.scene SelectSimilar.cube
    {| SelectSimilar._sim_limits := (0, 3 # 4)%Q;
       SelectSimilar._samplecnt := 512%Z; SelectSimilar.bincnt := 32%Z;
       SelectSimilar.svals := [("Stale"%string, 0%Q)] |} []
  = (SelectSimilar.Returned SelectSimilar.FINISHED,
     {| SelectSimilar._sim_limits := (0, 3 # 4)%Q;
        SelectSimilar._samplecnt := 512%Z; SelectSimilar.bincnt := 32%Z;
        SelectSimilar.svals :=
          [("Sphere"%string, 32 # 64); ("Cone"%string, 4 # 4)]%Q |},
     [SelectSimilar.SaveBarPlot "Cube"%string;
      SelectSimilar.SaveBarPlot "Sphere"%string;
      SelectSimilar.SaveBarPlot "Cone"%string;
      SelectSimilar.SelectSet "Sphere"%string true;
      SelectSimilar.SelectSet "Cone"%string false])
  /\ exists r self' added,
       SelectSimilar.invoke SelectSimilar.scene_distrib (fun _ => true)
         SelectSimilar.scene SelectSimilar.cube SelectSimilar.initial []
       = (r, self', [] ++ added)
       /\ ~ In (SelectSimilar.Report "ERROR_INVALID_INPUT"%string
                  "Sample first"%string) added.
Proof.
  split; [reflexivity|].
  destruct (@invoke_selects_compared_only SelectSimilar.scene_distrib
              (fun _ => true) SelectSimilar.scene SelectSimilar.cube
              SelectSimilar.initial [] [1 # 2; 1 # 2]%Q eq_refl)
    as (r & self' & added & Hrun & _ & Hrep & _).
  - intros o Ho Hc. simpl in Ho.
    destruct Ho as [<- |[<- |[<- |[<- |[]]]]]; try discriminate Hc;
      eexists; reflexivity.
  - exists r, self', added. split; assumption.
Defined.
